(** * go-cache: the LRU cache ([lru/lru.go]) and the byte view ([ByteView])

    A shallow embedding of package [lru] and of the type [ByteView] of
    package [go_cache], and the properties of the
    cache's accounting, recency order, eviction loop and of the byte view's
    defensive copy.

    Modelling conventions.
    - Go's [int64] is a [Z] wrapped into [-2^63, 2^63) by [int64]; every
      arithmetic step of the source is wrapped where the source computes it.
    - [container/list] is the sequence of its elements, front first.  An
      element is a pointer, here a natural number; what the pointer refers to
      (the [*entry] stored in the element's [Value]) lives in the store
      [elems], so that the map and the list share the nodes as in the source.
    - [map[string]*list.Element] is a [gmap string Element].
    - The [Value] interface is a type class with the single method [Len].
    - The eviction callback is a closure: it acts on a world [W] outside the
      cache and may call back into the cache while [RemoveOldest] is still
      running.  It is handed the fields as they are when it is called, so it
      knows what every [Get] and [Len] answers, and gives back the new world
      with the keys it has passed to [Get], in order; [RemoveOldest] makes
      these calls before it returns.  Calls of [Add] and [RemoveOldest] from
      inside the callback are not modelled.
    - A pointer that refers to nothing cannot be built in Go; the operations
      return [None] (a run-time panic) on it and well-formed states never do.
    - The [for] loop of [Add] runs on fuel: [OutOfFuel s] is the state [s]
      reached after that many iterations with the loop condition still true. *)

From stdpp Require Import gmap strings list fin_maps.
From Stdlib Require Import ZArith Lia Init.Byte.

Local Open Scope Z_scope.

(** ** Machine integers *)

Definition int64_min : Z := - 2 ^ 63.
Definition int64_max : Z := 2 ^ 63 - 1.

(** Conversion to [int64]: two's complement wrap-around. *)
Definition int64 (z : Z) : Z := (z + 2 ^ 63) mod 2 ^ 64 - 2 ^ 63.

Definition in_int64 (z : Z) : Prop := int64_min ≤ z ≤ int64_max.

(** ** The [Value] interface *)

Class Value (V : Type) := Len : V → Z.

(** ** [ByteView] (package [go_cache]) *)

Module ByteView.

(** A slice header: backing array, offset into it, length and capacity. *)
Record slice := mkSlice { arr : nat; off : nat; len : nat; cap : nat }.

(** The heap of backing arrays. *)
Abbreviation mem := (gmap nat (list byte)).

Definition array (m : mem) (a : nat) : list byte := default [] (m !! a).

(** The bytes a slice shows. *)
Definition contents (m : mem) (s : slice) : list byte :=
  take (len s) (drop (off s) (array m (arr s))).

(** A slice whose window lies inside its backing array; the nil slice
    (length 0 at offset 0) is one in every heap. *)
Definition valid (m : mem) (s : slice) : Prop :=
  (off s + len s ≤ length (array m (arr s)))%nat.

(** [make([]byte, n)]: a fresh zeroed array. *)
Definition make (m : mem) (n : nat) : slice * mem :=
  let a := fresh (dom m) in
  (mkSlice a 0 n n, <[a := replicate n x00]> m).

(** [copy(dst, src)]: copies [min(len(dst), len(src))] bytes. *)
Definition copy (m : mem) (dst src : slice) : mem * nat :=
  let n := (len dst `min` len src)%nat in
  let data := take n (contents m src) in
  let a := array m (arr dst) in
  (<[arr dst := take (off dst) a ++ data ++ drop (off dst + n) a]> m, n).

(** [s[i] = x]; an index out of range panics. *)
Definition store (m : mem) (s : slice) (i : nat) (x : byte) : option mem :=
  if decide (i < len s)%nat
  then Some (<[arr s := <[(off s + i)%nat := x]> (array m (arr s))]> m)
  else None.

(** A run of stores through one slice; a panicking store ends it. *)
Fixpoint mutate (m : mem) (s : slice) (ws : list (nat * byte)) : mem :=
  match ws with
  | [] => m
  | (i, x) :: ws' =>
      match store m s i x with
      | Some m' => mutate m' s ws'
      | None => m
      end
  end.

Record ByteView := mkByteView { b : slice }.

Definition Len_ (v : ByteView) : Z := Z.of_nat (len (b v)).

Definition cloneBytes (m : mem) (b : slice) : slice * mem :=
  let '(c, m1) := make m (len b) in
  let '(m2, _) := copy m1 c b in
  (c, m2).

Definition ByteSlice (v : ByteView) (m : mem) : slice * mem :=
  cloneBytes m (b v).

Definition String (v : ByteView) (m : mem) : string :=
  String.string_of_list_byte (contents m (b v)).

End ByteView.

#[export] Instance ByteView_Value : Value ByteView.ByteView := ByteView.Len_.

(** ** lru.go *)

Abbreviation Element := nat (only parsing).

Section lru.
Context {V : Type} `{!Value V} {W : Type}.

Record entry := mkEntry { key : string; value : V }.

(** The data fields of [Cache]. *)
Record Fields := mkFields {
  maxBytes : Z;
  nbytes : Z;
  ll : list Element;
  elems : gmap Element entry;
  cache : gmap string Element
}.

(** A callback: from the key, the value, the fields of the cache and the
    world, the new world and the keys it passes to [Get] on the cache. *)
Definition Callback : Type := string → V → Fields → W → W * list string.

Record Cache := mkCache {
  fields :> Fields;
  OnEvicted : option Callback
}.

(** *** container/list *)

Definition Remove (e : Element) (l : list Element) : list Element :=
  filter (λ x, x ≠ e) l.

Definition MoveToFront (e : Element) (l : list Element) : list Element :=
  if decide (e ∈ l) then e :: Remove e l else l.

Definition Back (l : list Element) : option Element := last l.

(** *** The cache *)

Definition entry_size (kv : entry) : Z :=
  Z.of_nat (String.length (key kv)) + Len (value kv).

(** The entries of the list nodes, front first. *)
Definition entries (c : Fields) : list entry :=
  omap (λ e, elems c !! e) (ll c).

Definition total_size (es : list entry) : Z :=
  foldr (λ kv acc, entry_size kv + acc) 0 es.

Definition live_bytes (c : Fields) : Z := total_size (entries c).

(** [Cache.Len]. *)
Definition Len_cache (c : Fields) : nat := length (ll c).

Definition New (maxBytes : Z) (onEvicted : option Callback) : Cache :=
  mkCache (mkFields maxBytes 0 [] ∅ ∅) onEvicted.

(** The [if]/[else] of [Add], before the eviction loop. *)
Definition Add_update (c : Cache) (k : string) (v : V) : option Cache :=
  match cache c !! k with
  | Some ele =>
      kv ← elems c !! ele;
      Some (mkCache
              (mkFields (maxBytes c)
                 (int64 (nbytes c + int64 (int64 (Len v) - int64 (Len (value kv)))))
                 (MoveToFront ele (ll c))
                 (<[ele := mkEntry (key kv) v]> (elems c))
                 (cache c))
              (OnEvicted c))
  | None =>
      let ele := fresh (dom (elems c)) in
      Some (mkCache
              (mkFields (maxBytes c)
                 (int64 (nbytes c
                         + int64 (int64 (Z.of_nat (String.length k)) + int64 (Len v))))
                 (ele :: ll c)
                 (<[ele := mkEntry k v]> (elems c))
                 (<[k := ele]> (cache c)))
              (OnEvicted c))
  end.

Definition Get (c : Cache) (k : string) : option (Cache * (option V * bool)) :=
  match cache c !! k with
  | Some ele =>
      kv ← elems c !! ele;
      Some (mkCache
              (mkFields (maxBytes c) (nbytes c) (MoveToFront ele (ll c))
                 (elems c) (cache c))
              (OnEvicted c),
            (Some (value kv), true))
  | None => Some (c, (None, false))
  end.

(** The calls of [Get] a callback makes on the cache, one after the other. *)
Fixpoint reenter (c : Cache) (ks : list string) : option Cache :=
  match ks with
  | [] => Some c
  | k :: ks' => '(c', _) ← Get c k; reenter c' ks'
  end.

(** The fields once [RemoveOldest] has taken the node [ele], holding [kv],
    off the list, its key off the map and its size off [nbytes]. *)
Definition unlink (c : Fields) (ele : Element) (kv : entry) : Fields :=
  mkFields (maxBytes c)
    (int64 (nbytes c
            - int64 (int64 (Z.of_nat (String.length (key kv)))
                     + int64 (Len (value kv)))))
    (Remove ele (ll c))
    (elems c)
    (delete (key kv) (cache c)).

Definition RemoveOldest (c : Cache) (w : W) : option (Cache * W) :=
  match Back (ll c) with
  | Some ele =>
      kv ← elems c !! ele;
      let f := unlink c ele kv in
      match OnEvicted c with
      | Some cb =>
          let r := cb (key kv) (value kv) f w in
          c' ← reenter (mkCache f (OnEvicted c)) r.2;
          Some (c', r.1)
      | None => Some (mkCache f (OnEvicted c), w)
      end
  | None => Some (c, w)
  end.

Inductive outcome (A : Type) : Type :=
| Returned (a : A)
| OutOfFuel (a : A)
| Panic.
Global Arguments Returned {A} a.
Global Arguments OutOfFuel {A} a.
Global Arguments Panic {A}.

(** The condition of the [for] loop of [Add]. *)
Definition over_budget (c : Fields) : bool :=
  negb (maxBytes c =? 0) && (maxBytes c <? nbytes c).

Fixpoint evict_loop (fuel : nat) (c : Cache) (w : W) : outcome (Cache * W) :=
  if over_budget c then
    match fuel with
    | O => OutOfFuel (c, w)
    | S fuel' =>
        match RemoveOldest c w with
        | Some (c', w') => evict_loop fuel' c' w'
        | None => Panic
        end
    end
  else Returned (c, w).

Definition Add (fuel : nat) (c : Cache) (k : string) (v : V) (w : W)
  : outcome (Cache * W) :=
  match Add_update c k v with
  | Some c' => evict_loop fuel c' w
  | None => Panic
  end.

(** *** Histories

    The calls made on a cache since [New], latest first; a call of [Add]
    is in a history when it returned.  The calls of [Get] that the callback
    makes while an [Add] or a [RemoveOldest] runs are calls on the cache as
    well: they come after the [Add] or [RemoveOldest] that caused them. *)

Inductive event :=
| EvAdd (k : string) (v : V)
| EvGet (k : string) (ok : bool)
| EvRemoveOldest.

(** The events of [reenter], latest first. *)
Fixpoint reenter_events (c : Cache) (ks : list string) : list event :=
  match ks with
  | [] => []
  | k :: ks' =>
      match Get c k with
      | Some (c', r) => reenter_events c' ks' ++ [EvGet k r.2]
      | None => []
      end
  end.

(** The calls of [Get] made by the callback during [RemoveOldest]. *)
Definition RemoveOldest_events (c : Cache) (w : W) : list event :=
  match Back (ll c) with
  | Some ele =>
      match elems c !! ele, OnEvicted c with
      | Some kv, Some cb =>
          let f := unlink c ele kv in
          reenter_events (mkCache f (OnEvicted c)) (cb (key kv) (value kv) f w).2
      | _, _ => []
      end
  | None => []
  end.

(** The calls of [Get] made by the callback during the loop of [Add]. *)
Fixpoint evict_events (fuel : nat) (c : Cache) (w : W) : list event :=
  if over_budget c then
    match fuel with
    | O => []
    | S fuel' =>
        match RemoveOldest c w with
        | Some (c', w') => evict_events fuel' c' w' ++ RemoveOldest_events c w
        | None => []
        end
    end
  else [].

Definition Add_events (fuel : nat) (c : Cache) (k : string) (v : V) (w : W)
  : list event :=
  match Add_update c k v with
  | Some c' => evict_events fuel c' w
  | None => []
  end.

Inductive history (mb : Z) (cb : option Callback) (w0 : W)
  : list event → Cache → W → Prop :=
| history_New : history mb cb w0 [] (New mb cb) w0
| history_Add h c w fuel k v c' w' :
    history mb cb w0 h c w →
    Add fuel c k v w = Returned (c', w') →
    history mb cb w0 (Add_events fuel c k v w ++ EvAdd k v :: h) c' w'
| history_Get h c w k c' r :
    history mb cb w0 h c w →
    Get c k = Some (c', r) →
    history mb cb w0 (EvGet k r.2 :: h) c' w
| history_RemoveOldest h c w c' w' :
    history mb cb w0 h c w →
    RemoveOldest c w = Some (c', w') →
    history mb cb w0 (RemoveOldest_events c w ++ EvRemoveOldest :: h) c' w'.

(** A callback that makes no call on the cache; so is no callback. *)
Definition quiet (cb : option Callback) : Prop :=
  ∀ g, cb = Some g → ∀ k v f w, (g k v f w).2 = [].

(** Running a history: every [Add] gets [fuel] iterations and must
    return, every [Get] must answer as the event says. *)
Definition exec (fuel : nat) (s : Cache * W) (ev : event) : option (Cache * W) :=
  match ev with
  | EvAdd k v =>
      match Add fuel s.1 k v s.2 with
      | Returned s' => Some s'
      | _ => None
      end
  | EvGet k ok =>
      '(c', r) ← Get s.1 k;
      if bool_decide (r.2 = ok) then Some (c', s.2) else None
  | EvRemoveOldest => RemoveOldest s.1 s.2
  end.

Definition run (fuel : nat) (mb : Z) (cb : option Callback) (w0 : W)
    (h : list event) : option (Cache * W) :=
  foldr (λ ev os, s ← os; exec fuel s ev) (Some (New mb cb, w0)) h.

(** The history of such a run: the calls with those of the callback. *)
Definition exec_events (fuel : nat) (s : Cache * W) (ev : event) : list event :=
  match ev with
  | EvAdd k v => Add_events fuel s.1 k v s.2 ++ [ev]
  | EvGet _ _ => [ev]
  | EvRemoveOldest => RemoveOldest_events s.1 s.2 ++ [ev]
  end.

Fixpoint run_events (fuel : nat) (mb : Z) (cb : option Callback) (w0 : W)
    (h : list event) : list event :=
  match h with
  | [] => []
  | ev :: h' =>
      match run fuel mb cb w0 h' with
      | Some s => exec_events fuel s ev ++ run_events fuel mb cb w0 h'
      | None => []
      end
  end.

(** Whether an event is an [Add] of [k] or a successful [Get] of [k]. *)
Definition uses (k : string) (ev : event) : bool :=
  match ev with
  | EvAdd k' _ => bool_decide (k' = k)
  | EvGet k' ok => bool_decide (k' = k) && ok
  | EvRemoveOldest => false
  end.

(** The time (the number of earlier calls) of the latest use of [k]. *)
Fixpoint last_use (h : list event) (k : string) : option nat :=
  match h with
  | [] => None
  | ev :: h' => if uses k ev then Some (length h') else last_use h' k
  end.

(** The keys given to [Add] in a history. *)
Fixpoint added_keys (h : list event) : gset string :=
  match h with
  | [] => ∅
  | EvAdd k _ :: h' => {[k]} ∪ added_keys h'
  | _ :: h' => added_keys h'
  end.

Definition is_RemoveOldest (ev : event) : bool :=
  match ev with EvRemoveOldest => true | _ => false end.

Definition no_RemoveOldest (h : list event) : bool :=
  forallb (λ ev, negb (is_RemoveOldest ev)) h.

(** The entries from the front are used later and later towards the
    front, all before time [bound]. *)
Fixpoint recent (h : list event) (bound : nat) (es : list entry) : Prop :=
  match es with
  | [] => True
  | kv :: es' =>
      ∃ t, last_use h (key kv) = Some t ∧ (t < bound)%nat ∧ recent h t es'
  end.

(** *** Well-formed states *)

Record wf (c : Fields) : Prop := mkWf {
  wf_nodup : NoDup (ll c);
  wf_alloc : ∀ e, e ∈ ll c → is_Some (elems c !! e);
  wf_index : ∀ k e, cache c !! k = Some e ↔
                    e ∈ ll c ∧ ∃ v, elems c !! e = Some (mkEntry k v);
  wf_bytes : nbytes c = int64 (live_bytes c)
}.

(** *** Uses of the cache by a caller *)

(** [n] calls of [RemoveOldest] in a row. *)
Fixpoint RemoveOldest_n (n : nat) (c : Cache) (w : W) : option (Cache * W) :=
  match n with
  | O => Some (c, w)
  | S n' => '(c', w') ← RemoveOldest c w; RemoveOldest_n n' c' w'
  end.

(** The value given by the latest [Add] of [k] in a history. *)
Fixpoint last_added (h : list event) (k : string) : option V :=
  match h with
  | [] => None
  | EvAdd k' v :: h' => if decide (k' = k) then Some v else last_added h' k
  | _ :: h' => last_added h' k
  end.

End lru.

Arguments entry V : clear implicits.
Arguments Fields V : clear implicits.
Arguments Callback V W : clear implicits.
Arguments Cache V W : clear implicits.
Arguments event V : clear implicits.

(** ** Concrete instances used to run the model *)

Module Run.
Import ByteView.

(** A byte view of [n] bytes (the window [0, n) of array 0). *)
Definition bv (n : nat) : ByteView := mkByteView (mkSlice 0 0 n n).

(** A callback that records the key, the size of the value and the number
    of entries the cache holds when it is called. *)
Definition record_cb : Callback ByteView (list (string * Z * nat)) :=
  λ k v view w, (w ++ [(k, Len v, Len_cache view)], []).

(** A callback that records the same and calls [Get(k0)] on the cache. *)
Definition getting_cb (k0 : string) : Callback ByteView (list (string * Z * nat)) :=
  λ k v view w, (w ++ [(k, Len v, Len_cache view)], [k0]).

(** A value type whose [Len()] is a number it holds. *)
Record sized := mkSized { size_of : Z }.

Definition keys (c : Fields ByteView) : list string := key <$> entries c.

Abbreviation log := (list (string * Z * nat)).

(** A cache of 24 bytes after [Add("key1", 8 bytes)], [Add("key2", 8 bytes)]
    and [Get("key1")]. *)
Definition demo_events : list (event ByteView) :=
  [EvGet "key1" true; EvAdd "key2" (bv 8); EvAdd "key1" (bv 8)].

Definition demo : Cache ByteView log * log :=
  default (New 24 (Some record_cb), [])
    (run 3 24 (Some record_cb) [] demo_events).

(** A cache without a budget after [Add("a", 1 byte)], [Add("b", 1 byte)]
    and [Get("a")]. *)
Definition unbounded_events : list (event ByteView) :=
  [EvGet "a" true; EvAdd "b" (bv 1); EvAdd "a" (bv 1)].

Definition unbounded : Cache ByteView log * log :=
  default (New 0 (Some record_cb), [])
    (run 0 0 (Some record_cb) [] unbounded_events).

(** A heap with one array and the view of its three bytes. *)
Definition heap3 : mem := {[ 0%nat := [x61; x62; x63] ]}.

(** The demo cache after [Add("key3", 8 bytes)], which evicts ["key2"]. *)
Definition demo_added : Cache ByteView log * log :=
  match Add 3 demo.1 "key3" (bv 8) demo.2 with
  | Returned s => s
  | _ => demo
  end.

(** The demo cache after [RemoveOldest()]. *)
Definition demo_removed : Cache ByteView log * log :=
  default demo (RemoveOldest demo.1 demo.2).

(** The demo cache after [Get("key2")], with what [Get] returned. *)
Definition demo_got : Cache ByteView log * (option ByteView * bool) :=
  default (demo.1, (None, false)) (Get demo.1 "key2").

End Run.

#[export] Instance sized_Value : Value Run.sized := Run.size_of.

(** * Properties *)

(** ** Machine integers *)

Lemma int64_range z : in_int64 (int64 z).
Proof.
  unfold in_int64, int64, int64_min, int64_max.
  pose proof (Z.mod_pos_bound (z + 2 ^ 63) (2 ^ 64)); lia.
Qed.

Lemma int64_id z : in_int64 z → int64 z = z.
Proof.
  unfold in_int64, int64, int64_min, int64_max; intros Hz.
  rewrite Z.mod_small; lia.
Qed.

Lemma int64_add_l a b : int64 (int64 a + b) = int64 (a + b).
Proof.
  unfold int64. f_equal.
  replace ((a + 2 ^ 63) mod 2 ^ 64 - 2 ^ 63 + b + 2 ^ 63)
    with ((a + 2 ^ 63) mod 2 ^ 64 + b) by lia.
  rewrite Zplus_mod_idemp_l. f_equal; lia.
Qed.

Lemma int64_add_r a b : int64 (a + int64 b) = int64 (a + b).
Proof. rewrite (Z.add_comm a), int64_add_l. f_equal; lia. Qed.

Lemma int64_sub_l a b : int64 (int64 a - b) = int64 (a - b).
Proof. unfold Z.sub. apply int64_add_l. Qed.

Lemma int64_sub_r a b : int64 (a - int64 b) = int64 (a - b).
Proof.
  unfold int64. f_equal.
  replace (a - ((b + 2 ^ 63) mod 2 ^ 64 - 2 ^ 63) + 2 ^ 63)
    with (a + 2 ^ 64 - (b + 2 ^ 63) mod 2 ^ 64) by lia.
  rewrite Zminus_mod_idemp_r. f_equal; lia.
Qed.

Lemma int64_0 : int64 0 = 0.
Proof. reflexivity. Qed.

(** Equations between wrapped sums, by linear arithmetic on the quotients. *)
Ltac int64_lia :=
  unfold int64 in *;
  change (2 ^ 64) with 18446744073709551616 in *;
  change (2 ^ 63) with 9223372036854775808 in *;
  Z.div_mod_to_equations; lia.

(** ** Lists *)

Lemma omap_filter {A B} (f : A → option B) (P : A → Prop) (Q : B → Prop)
    `{!∀ x, Decision (P x)} `{!∀ y, Decision (Q y)} (l : list A) :
  (∀ x y, x ∈ l → f x = Some y → (P x ↔ Q y)) →
  omap f (filter P l) = filter Q (omap f l).
Proof.
  induction l as [|x l IH]; intros HPQ; [done|].
  rewrite filter_cons. cbn [omap list_omap].
  assert (IH' : omap f (filter P l) = filter Q (omap f l)).
  { apply IH. intros x' y Hx'. apply HPQ. by right. }
  destruct (f x) as [y|] eqn:Hfx.
  - rewrite filter_cons.
    pose proof (HPQ x y (list_elem_of_here _ _) Hfx) as Hiff.
    destruct (decide (P x)), (decide (Q y)); try tauto;
      cbn [omap list_omap]; rewrite ?Hfx; by f_equal.
  - destruct (decide (P x)); [|done].
    cbn [omap list_omap]. by rewrite Hfx.
Qed.

Lemma filter_ne_snoc (l : list nat) (e : nat) :
  NoDup (l ++ [e]) → filter (λ x, x ≠ e) (l ++ [e]) = l.
Proof.
  induction l as [|x l IH]; cbn [app]; intros Hnd.
  - rewrite filter_cons_False; [done | tauto].
  - apply NoDup_cons in Hnd as [Hx Hnd].
    rewrite filter_cons_True; [by rewrite IH|].
    intros ->. apply Hx, elem_of_app. right. left.
Qed.

Lemma omap_ext_in {A B} (f g : A → option B) (l : list A) :
  (∀ x, x ∈ l → f x = g x) → omap f l = omap g l.
Proof.
  induction l as [|x l IH]; intros Hfg; [done|].
  cbn [omap list_omap]. rewrite (Hfg x) by left.
  rewrite IH; [done|]. intros y Hy. apply Hfg. by right.
Qed.

Lemma omap_length_total {A B} (f : A → option B) (l : list A) :
  (∀ x, x ∈ l → is_Some (f x)) → length (omap f l) = length l.
Proof.
  induction l as [|x l IH]; intros Hf; [done|].
  cbn [omap list_omap]. destruct (Hf x) as [y ->]; [left|].
  cbn [length]. rewrite IH; [done|]. intros z Hz. apply Hf. by right.
Qed.

(** ** Well-formed states *)

Section lru_facts.
Context {V : Type} `{!Value V} {W : Type}.
Implicit Types (c : Cache V W) (f : Fields V) (kv : entry V) (w : W).
Implicit Types (k : string) (v : V) (e : nat).

Lemma total_size_cons kv (es : list (entry V)) :
  total_size (kv :: es) = entry_size kv + total_size es.
Proof. reflexivity. Qed.

Lemma total_size_app (es1 es2 : list (entry V)) :
  total_size (es1 ++ es2) = total_size es1 + total_size es2.
Proof.
  induction es1 as [|kv es1 IH]; [done|].
  rewrite <- app_comm_cons, !total_size_cons, IH. lia.
Qed.

Lemma total_size_filter k v (es : list (entry V)) :
  NoDup (key <$> es) → mkEntry k v ∈ es →
  total_size es
  = entry_size (mkEntry k v) + total_size (filter (λ kv, key kv ≠ k) es).
Proof.
  induction es as [|kv es IH]; intros Hnd Hin.
  - by apply elem_of_nil in Hin.
  - rewrite fmap_cons in Hnd. apply NoDup_cons in Hnd as [Hk Hnd].
    apply elem_of_cons in Hin as [<-|Hin].
    + rewrite filter_cons_False by (cbn; tauto).
      rewrite total_size_cons. do 2 f_equal.
      symmetry. clear IH Hnd. cbn [key] in Hk.
      induction es as [|kv' es IH]; [done|].
      rewrite fmap_cons in Hk. apply not_elem_of_cons in Hk as [Hne Hk].
      rewrite filter_cons_True by congruence. by rewrite IH.
    + assert (key kv ≠ k) as Hne.
      { intros <-. apply Hk. by apply (list_elem_of_fmap_2 key) in Hin. }
      rewrite filter_cons_True by done.
      rewrite !total_size_cons, (IH Hnd Hin). lia.
Qed.

Lemma wf_New mb cb : wf (New (V:=V) (W:=W) mb cb).
Proof.
  split; cbn.
  - constructor.
  - intros e He. by apply elem_of_nil in He.
  - intros k e. rewrite lookup_empty. split; [done|].
    intros [He _]. by apply elem_of_nil in He.
  - reflexivity.
Qed.

Lemma wf_entries_length f : wf f → length (entries f) = length (ll f).
Proof. intros Hwf. apply omap_length_total, Hwf. Qed.

Lemma wf_entry_lookup f k v :
  wf f →
  mkEntry k v ∈ entries f ↔
  ∃ e, cache f !! k = Some e ∧ elems f !! e = Some (mkEntry k v).
Proof.
  intros Hwf. unfold entries. rewrite list_elem_of_omap. split.
  - intros (e & He & Hl). exists e. split; [|done].
    apply (wf_index _ Hwf). eauto.
  - intros (e & Hc & Hl). exists e. split; [|done].
    by apply (wf_index _ Hwf) in Hc as [? _].
Qed.

Lemma wf_node_inj f e1 e2 kv1 kv2 :
  wf f → e1 ∈ ll f → e2 ∈ ll f →
  elems f !! e1 = Some kv1 → elems f !! e2 = Some kv2 →
  key kv1 = key kv2 → e1 = e2.
Proof.
  intros Hwf H1 H2 Hl1 Hl2 Hk. destruct kv1 as [k1 v1], kv2 as [k2 v2].
  cbn in Hk. subst k2.
  assert (cache f !! k1 = Some e1) as Hc1 by (apply (wf_index _ Hwf); eauto).
  assert (cache f !! k1 = Some e2) as Hc2 by (apply (wf_index _ Hwf); eauto).
  congruence.
Qed.

Lemma wf_keys_NoDup f : wf f → NoDup (key <$> entries f).
Proof.
  intros Hwf. unfold entries.
  pose proof (wf_nodup _ Hwf) as Hnd.
  assert (Hinj : ∀ e1 e2 kv1 kv2, e1 ∈ ll f → e2 ∈ ll f →
            elems f !! e1 = Some kv1 → elems f !! e2 = Some kv2 →
            key kv1 = key kv2 → e1 = e2)
    by (intros; eapply wf_node_inj; eauto).
  revert Hnd Hinj. generalize (ll f) as l.
  induction l as [|e l IH]; intros Hnd Hinj; [constructor|].
  apply NoDup_cons in Hnd as [He Hnd].
  cbn [omap list_omap].
  assert (NoDup (key <$> omap (λ e0, elems f !! e0) l)) as IH'.
  { apply IH; [done|]. intros e1 e2 ?? H1 H2. apply Hinj; by right. }
  destruct (elems f !! e) as [kv|] eqn:Hl; [|done].
  rewrite fmap_cons. apply NoDup_cons. split; [|done].
  intros (kv' & Hk & Hin)%list_elem_of_fmap.
  apply list_elem_of_omap in Hin as (e' & He' & Hl').
  assert (e = e') by (eapply Hinj; eauto; [left | by right]).
  by subst e'.
Qed.

Lemma wf_keys_dom f : wf f → dom (cache f) = list_to_set (key <$> entries f).
Proof.
  intros Hwf. apply set_eq. intros k.
  rewrite elem_of_dom, elem_of_list_to_set, list_elem_of_fmap. split.
  - intros [e Hc]. pose proof Hc as Hc'.
    apply (wf_index _ Hwf) in Hc as [He [v Hl]].
    exists (mkEntry k v). split; [done|].
    apply wf_entry_lookup; eauto.
  - intros ([k' v] & -> & Hin). cbn.
    apply wf_entry_lookup in Hin as (e & Hc & _); eauto.
Qed.

Lemma fresh_not_in_ll f : wf f → fresh (dom (elems f)) ∉ ll f.
Proof.
  intros Hwf Hin. apply (wf_alloc _ Hwf) in Hin.
  apply elem_of_dom in Hin. by apply is_fresh in Hin.
Qed.

(** *** [Add], the key is new *)

Lemma Add_update_miss c k v :
  wf c → cache c !! k = None →
  ∃ c1, Add_update c k v = Some c1 ∧ wf c1 ∧
        ll c1 = fresh (dom (elems c)) :: ll c ∧
        entries c1 = mkEntry k v :: entries c ∧
        cache c1 = <[k := fresh (dom (elems c))]> (cache c) ∧
        elems c1 = <[fresh (dom (elems c)) := mkEntry k v]> (elems c) ∧
        maxBytes c1 = maxBytes c ∧ OnEvicted c1 = OnEvicted c.
Proof.
  intros Hwf Hk. unfold Add_update. rewrite Hk.
  eexists. split; [reflexivity|]. cbn.
  set (e := fresh (dom (elems c))).
  pose proof (fresh_not_in_ll _ Hwf) as He. fold e in He.
  assert (Hent : entries (mkFields (maxBytes c)
                   (int64 (nbytes c + int64 (int64 (Z.of_nat (String.length k))
                                             + int64 (Len v))))
                   (e :: ll c) (<[e := mkEntry k v]> (elems c))
                   (<[k := e]> (cache c)))
                 = mkEntry k v :: entries c).
  { unfold entries. cbn. rewrite lookup_insert_eq. f_equal.
    apply omap_ext_in. intros x Hx. rewrite lookup_insert_ne; [done|].
    intros <-. done. }
  split; [|done].
  split; [cbn | cbn | cbn |].
  - apply NoDup_cons. split; [done | apply Hwf].
  - intros x [->|Hx]%elem_of_cons.
    + rewrite lookup_insert_eq. eauto.
    + rewrite lookup_insert_ne by (intros <-; done). by apply (wf_alloc _ Hwf).
  - intros k' x. destruct (decide (k' = k)) as [->|Hne].
    + rewrite lookup_insert_eq. split.
      * intros [= <-]. split; [left|]. exists v. by rewrite lookup_insert_eq.
      * intros [[->|Hx]%elem_of_cons [v' Hl]]; [done|].
        rewrite lookup_insert_ne in Hl by (intros <-; done).
        assert (cache c !! k = Some x) as Hc by (apply (wf_index _ Hwf); eauto).
        congruence.
    + rewrite lookup_insert_ne by done. rewrite (wf_index _ Hwf). split.
      * intros [Hx [v' Hl]]. split; [by right|]. exists v'.
        rewrite lookup_insert_ne; [done|]. intros <-. done.
      * intros [[->|Hx]%elem_of_cons [v' Hl]].
        -- rewrite lookup_insert_eq in Hl. congruence.
        -- split; [done|]. exists v'.
           rewrite lookup_insert_ne in Hl; [done|]. intros <-. done.
  - unfold live_bytes. rewrite Hent, total_size_cons.
    rewrite (wf_bytes _ Hwf). unfold live_bytes, entry_size. cbn [key value nbytes fields].
    clear. int64_lia.
Qed.

(** *** Moving a node to the front *)

Lemma MoveToFront_in e (l : list nat) :
  e ∈ l → MoveToFront e l = e :: Remove e l.
Proof. intros He. unfold MoveToFront. by rewrite decide_True. Qed.

Lemma elem_of_MoveToFront x e (l : list nat) : x ∈ MoveToFront e l ↔ x ∈ l.
Proof.
  unfold MoveToFront, Remove. destruct (decide (e ∈ l)) as [He|]; [|done].
  rewrite elem_of_cons, list_elem_of_filter.
  destruct (decide (x = e)) as [->|]; [tauto|]. tauto.
Qed.

Lemma NoDup_MoveToFront e (l : list nat) : NoDup l → NoDup (MoveToFront e l).
Proof.
  intros Hnd. unfold MoveToFront, Remove.
  destruct (decide (e ∈ l)); [|done].
  apply NoDup_cons. split; [|by apply NoDup_filter].
  rewrite list_elem_of_filter. tauto.
Qed.

Lemma wf_touch f k e v0 v nb' :
  wf f → cache f !! k = Some e → elems f !! e = Some (mkEntry k v0) →
  nb' = int64 (nbytes f + Len v - Len v0) →
  let f' := mkFields (maxBytes f) nb' (MoveToFront e (ll f))
              (<[e := mkEntry k v]> (elems f)) (cache f) in
  wf f' ∧ entries f' = mkEntry k v :: filter (λ kv, key kv ≠ k) (entries f).
Proof.
  intros Hwf Hc Hl Hnb f'.
  assert (e ∈ ll f) as He by (by apply (wf_index _ Hwf) in Hc as [? _]).
  assert (Hent : entries f'
                 = mkEntry k v :: filter (λ kv, key kv ≠ k) (entries f)).
  { unfold entries, f'. cbn [ll elems]. rewrite MoveToFront_in by done.
    cbn [omap list_omap]. rewrite lookup_insert_eq. f_equal.
    unfold Remove.
    rewrite (omap_ext_in _ (λ x, elems f !! x)).
    - apply omap_filter. intros x y Hx Hy. split.
      + intros Hne Hk. apply Hne.
        eapply (wf_node_inj f x e y (mkEntry k v0)); eauto.
      + intros Hne ->. rewrite Hl in Hy. injection Hy as <-. by apply Hne.
    - intros x [Hne _]%list_elem_of_filter. by rewrite lookup_insert_ne. }
  split; [|done].
  split; [cbn | cbn | cbn |].
  - apply NoDup_MoveToFront, Hwf.
  - intros x Hx%elem_of_MoveToFront. destruct (decide (x = e)) as [->|Hne].
    + rewrite lookup_insert_eq. eauto.
    + rewrite lookup_insert_ne by done. by apply (wf_alloc _ Hwf).
  - intros k' x. rewrite elem_of_MoveToFront, (wf_index _ Hwf).
    destruct (decide (x = e)) as [->|Hne].
    + rewrite lookup_insert_eq, Hl.
      split; intros [Hx [v' [= <-]]]; eauto.
    + by rewrite lookup_insert_ne.
  - unfold live_bytes. rewrite Hent, total_size_cons.
    change (nbytes f') with nb'. subst nb'.
    rewrite (wf_bytes _ Hwf). unfold live_bytes.
    rewrite (total_size_filter k v0 (entries f)).
    + unfold entry_size. cbn [key value].
      generalize (total_size (filter (λ kv, key kv ≠ k) (entries f))).
      generalize (Len v) (Len v0) (Z.of_nat (String.length k)).
      clear. intros. int64_lia.
    + by apply wf_keys_NoDup.
    + apply wf_entry_lookup; eauto.
Qed.

(** *** [Add], the key is present *)

Lemma Add_update_hit c k v e :
  wf c → cache c !! k = Some e →
  ∃ v0 c1, elems c !! e = Some (mkEntry k v0) ∧
        Add_update c k v = Some c1 ∧ wf c1 ∧
        ll c1 = e :: Remove e (ll c) ∧
        entries c1 = mkEntry k v :: filter (λ kv, key kv ≠ k) (entries c) ∧
        cache c1 = cache c ∧
        elems c1 = <[e := mkEntry k v]> (elems c) ∧
        maxBytes c1 = maxBytes c ∧ OnEvicted c1 = OnEvicted c.
Proof.
  intros Hwf Hc.
  pose proof Hc as [He [v0 Hl]]%(wf_index _ Hwf).
  unfold Add_update. rewrite Hc, Hl. cbn [mbind option_bind key value].
  exists v0. eexists. split; [done|]. split; [reflexivity|].
  cbn [fields ll elems cache maxBytes OnEvicted].
  destruct (wf_touch c k e v0 v
              (int64 (nbytes c + int64 (int64 (Len v) - int64 (Len v0))))
              Hwf Hc Hl) as [Hwf' Hent].
  { generalize (nbytes c) (Len v) (Len v0). clear. intros. int64_lia. }
  split_and!; try done. by rewrite MoveToFront_in.
Qed.

(** *** [Get] *)

Lemma Get_miss c k : cache c !! k = None → Get c k = Some (c, (None, false)).
Proof. intros Hc. unfold Get. by rewrite Hc. Qed.

Lemma Get_hit c k e :
  wf c → cache c !! k = Some e →
  ∃ v0 c1, elems c !! e = Some (mkEntry k v0) ∧
        Get c k = Some (c1, (Some v0, true)) ∧ wf c1 ∧
        ll c1 = e :: Remove e (ll c) ∧
        entries c1 = mkEntry k v0 :: filter (λ kv, key kv ≠ k) (entries c) ∧
        cache c1 = cache c ∧ elems c1 = elems c ∧ nbytes c1 = nbytes c ∧
        maxBytes c1 = maxBytes c ∧ OnEvicted c1 = OnEvicted c.
Proof.
  intros Hwf Hc.
  pose proof Hc as [He [v0 Hl]]%(wf_index _ Hwf).
  unfold Get. rewrite Hc, Hl. cbn [mbind option_bind key value].
  exists v0. eexists. split; [done|]. split; [reflexivity|].
  cbn [fields ll elems cache maxBytes nbytes OnEvicted].
  destruct (wf_touch c k e v0 v0 (nbytes c) Hwf Hc Hl) as [Hwf' Hent].
  { rewrite (wf_bytes _ Hwf). generalize (live_bytes c) (Len v0).
    clear. intros. int64_lia. }
  rewrite insert_id in Hwf', Hent by done.
  split_and!; try done. by rewrite MoveToFront_in.
Qed.

(** *** Calls of [Get] from the callback *)

Lemma filter_Forall_id {A} (P : A → Prop) `{!∀ x, Decision (P x)} (l : list A) :
  Forall P l → filter P l = l.
Proof.
  induction 1 as [|x l Hx _ IH]; [done|].
  by rewrite filter_cons_True, IH.
Qed.

Lemma keys_move_front (es : list (entry V)) k v :
  NoDup (key <$> es) → mkEntry k v ∈ es →
  mkEntry k v :: filter (λ kv, key kv ≠ k) es ≡ₚ es.
Proof.
  induction es as [|kv es IH]; intros Hnd Hin.
  - by apply elem_of_nil in Hin.
  - rewrite fmap_cons in Hnd. apply NoDup_cons in Hnd as [Hk Hnd].
    apply elem_of_cons in Hin as [<-|Hin].
    + rewrite filter_cons_False by (cbn; tauto).
      rewrite filter_Forall_id; [done|].
      apply Forall_forall. intros kv Hkv Heq. apply Hk. cbn [key].
      rewrite <- Heq. by apply list_elem_of_fmap_2.
    + assert (key kv ≠ k) as Hne.
      { intros <-. apply Hk. by apply (list_elem_of_fmap_2 key) in Hin. }
      rewrite filter_cons_True by done.
      rewrite Permutation_swap. by rewrite (IH Hnd Hin).
Qed.

Lemma reenter_spec ks : ∀ c,
  wf c →
  ∃ c', reenter c ks = Some c' ∧ wf c' ∧ entries c' ≡ₚ entries c ∧
        cache c' = cache c ∧ elems c' = elems c ∧ nbytes c' = nbytes c ∧
        maxBytes c' = maxBytes c ∧ OnEvicted c' = OnEvicted c.
Proof.
  induction ks as [|k ks IH]; intros c Hwf; cbn [reenter].
  - exists c. by split_and!.
  - destruct (cache c !! k) as [e|] eqn:Hc.
    + destruct (Get_hit c k e Hwf Hc)
        as (v0 & c1 & Hl & HG & Hwf1 & _ & Hent & Hca & Hel & Hnb & Hmb & Hcb).
      rewrite HG. cbn [mbind option_bind].
      destruct (IH c1 Hwf1) as (c' & HR & Hwf' & Hp & Hca' & Hel' & Hnb' & Hmb' & Hcb').
      exists c'. split_and!; try done; try congruence.
      rewrite Hp, Hent. apply keys_move_front; [by apply wf_keys_NoDup|].
      apply wf_entry_lookup; eauto.
    + rewrite (Get_miss c k Hc). cbn [mbind option_bind]. by apply IH.
Qed.

Lemma wf_perm_length f f' :
  wf f → wf f' → entries f' ≡ₚ entries f → length (ll f') = length (ll f).
Proof.
  intros Hwf Hwf' Hp. rewrite <- !wf_entries_length by done. by rewrite Hp.
Qed.

(** *** [RemoveOldest] *)

Lemma RemoveOldest_empty c w : ll c = [] → RemoveOldest c w = Some (c, w).
Proof. intros Hll. unfold RemoveOldest, Back. by rewrite Hll. Qed.

Lemma RemoveOldest_events_empty c w : ll c = [] → RemoveOldest_events c w = [].
Proof. intros Hll. unfold RemoveOldest_events, Back. by rewrite Hll. Qed.

Lemma unlink_spec f l e kv :
  wf f → ll f = l ++ [e] → elems f !! e = Some kv →
  wf (unlink f e kv) ∧ ll (unlink f e kv) = l ∧
  entries f = entries (unlink f e kv) ++ [kv] ∧
  nbytes (unlink f e kv) = int64 (nbytes f - entry_size kv).
Proof.
  intros Hwf Hll Hl.
  pose proof (wf_nodup _ Hwf) as Hnd. rewrite Hll in Hnd.
  assert (ll (unlink f e kv) = l) as Hll'.
  { unfold unlink, Remove. cbn [ll]. rewrite Hll. by apply filter_ne_snoc. }
  assert (Hent : entries f = entries (unlink f e kv) ++ [kv]).
  { unfold entries. rewrite Hll'. cbn [elems unlink].
    rewrite Hll, omap_app. cbn [omap list_omap]. by rewrite Hl. }
  assert (Hnb : nbytes (unlink f e kv) = int64 (nbytes f - entry_size kv)).
  { unfold unlink, entry_size. cbn [nbytes].
    generalize (nbytes f) (Len (value kv)) (Z.of_nat (String.length (key kv))).
    clear. intros. int64_lia. }
  split_and!; try done.
  apply NoDup_app in Hnd as (Hndl & Hdisj & _).
  split.
  - by rewrite Hll'.
  - rewrite Hll'. cbn [elems unlink]. intros x Hx.
    apply (wf_alloc _ Hwf). rewrite Hll, elem_of_app. by left.
  - rewrite Hll'. cbn [elems cache unlink].
    intros k x. destruct kv as [k0 v0]. cbn [key].
    destruct (decide (k = k0)) as [->|Hne].
    + rewrite lookup_delete_eq. split; [done|].
      intros [Hx [v Hlx]].
      assert (x = e); [|subst x; exfalso; apply (Hdisj e Hx); left].
      eapply (wf_node_inj f x e); eauto;
        rewrite Hll, elem_of_app; [by left | right; left].
    + rewrite lookup_delete_ne by done. rewrite (wf_index _ Hwf), Hll. split.
      * intros [[Hx|Hx%list_elem_of_singleton]%elem_of_app [v Hlx]]; [eauto|].
        subst x. congruence.
      * intros [Hx Hv]. split; [|done]. rewrite elem_of_app. by left.
  - rewrite Hnb, (wf_bytes _ Hwf). unfold live_bytes.
    rewrite Hent, total_size_app, total_size_cons.
    change (total_size []) with 0.
    generalize (total_size (entries (unlink f e kv))) (entry_size kv).
    clear. intros. int64_lia.
Qed.

Lemma RemoveOldest_unfold c w l e kv :
  ll c = l ++ [e] → elems c !! e = Some kv →
  RemoveOldest c w
  = match OnEvicted c with
    | Some g =>
        c' ← reenter (mkCache (unlink c e kv) (OnEvicted c))
               (g (key kv) (value kv) (unlink c e kv) w).2;
        Some (c', (g (key kv) (value kv) (unlink c e kv) w).1)
    | None => Some (mkCache (unlink c e kv) (OnEvicted c), w)
    end ∧
  RemoveOldest_events c w
  = match OnEvicted c with
    | Some g =>
        reenter_events (mkCache (unlink c e kv) (OnEvicted c))
          (g (key kv) (value kv) (unlink c e kv) w).2
    | None => []
    end.
Proof.
  intros Hll Hl. unfold RemoveOldest, RemoveOldest_events, Back.
  rewrite Hll, last_snoc, Hl. cbn [mbind option_bind].
  by destruct (OnEvicted c).
Qed.

Lemma RemoveOldest_snoc c w l e :
  wf c → ll c = l ++ [e] →
  ∃ kv c' w', elems c !! e = Some kv ∧
        RemoveOldest c w = Some (c', w') ∧ wf c' ∧
        entries c' ≡ₚ entries (unlink c e kv) ∧
        entries c = entries (unlink c e kv) ++ [kv] ∧
        length (ll c') = length l ∧
        cache c' = delete (key kv) (cache c) ∧ elems c' = elems c ∧
        nbytes c' = int64 (nbytes c - entry_size kv) ∧
        maxBytes c' = maxBytes c ∧ OnEvicted c' = OnEvicted c.
Proof.
  intros Hwf Hll.
  assert (e ∈ ll c) as He by (rewrite Hll, elem_of_app; right; left).
  destruct (wf_alloc _ Hwf e He) as [kv Hl].
  destruct (unlink_spec c l e kv Hwf Hll Hl) as (Hwfu & Hllu & Hent & Hnb).
  destruct (RemoveOldest_unfold c w l e kv Hll Hl) as [HR _].
  exists kv. destruct (OnEvicted c) as [g|] eqn:Hcb.
  - destruct (reenter_spec (g (key kv) (value kv) (unlink c e kv) w).2
                (mkCache (unlink c e kv) (Some g)) Hwfu)
      as (c' & Hre & Hwf' & Hp & Hca & Hel & Hnb' & Hmb & Hcb').
    rewrite Hre in HR. cbn [mbind option_bind] in HR.
    exists c', (g (key kv) (value kv) (unlink c e kv) w).1.
    split_and!; try done.
    + rewrite (wf_perm_length (unlink c e kv) c') by done. by rewrite Hllu.
    + by rewrite Hnb'.
  - exists (mkCache (unlink c e kv) None), w.
    split_and!; try done. cbn [fields]. by rewrite Hllu.
Qed.

Lemma RemoveOldest_quiet c w l e kv :
  quiet (OnEvicted c) → ll c = l ++ [e] → elems c !! e = Some kv →
  RemoveOldest c w
  = Some (mkCache (unlink c e kv) (OnEvicted c),
          match OnEvicted c with
          | Some g => (g (key kv) (value kv) (unlink c e kv) w).1
          | None => w
          end) ∧
  RemoveOldest_events c w = [].
Proof.
  intros Hq Hll Hl.
  destruct (RemoveOldest_unfold c w l e kv Hll Hl) as [-> ->].
  destruct (OnEvicted c) as [g|] eqn:Hcb; [|done].
  by rewrite (Hq g eq_refl).
Qed.

(** *** [Add] before the loop, both paths *)

Lemma filter_key_absent f k :
  wf f → cache f !! k = None →
  filter (λ kv, key kv ≠ k) (entries f) = entries f.
Proof.
  intros Hwf Hk. apply filter_Forall_id, Forall_forall.
  intros [k' v'] Hin ?; simplify_eq/=.
  apply wf_entry_lookup in Hin as (e & Hc & _); [congruence | done].
Qed.

Lemma Add_update_spec c k v :
  wf c →
  ∃ c1, Add_update c k v = Some c1 ∧ wf c1 ∧
        entries c1 = mkEntry k v :: filter (λ kv, key kv ≠ k) (entries c) ∧
        (length (ll c1) ≤ S (length (ll c)))%nat ∧
        dom (cache c1) = {[k]} ∪ dom (cache c) ∧
        maxBytes c1 = maxBytes c ∧ OnEvicted c1 = OnEvicted c.
Proof.
  intros Hwf. destruct (cache c !! k) as [e|] eqn:Hc.
  - destruct (Add_update_hit c k v e Hwf Hc)
      as (v0 & c1 & Hl & HA & Hwf1 & Hll & Hent & Hca & _ & Hmb & Hcb).
    exists c1. split_and!; try done.
    + rewrite Hll. cbn [length]. unfold Remove.
      pose proof (length_filter (λ x, x ≠ e) (ll c)). lia.
    + rewrite Hca. apply elem_of_dom_2 in Hc.
      apply set_eq. intros x. rewrite elem_of_union, elem_of_singleton.
      split; [tauto | by intros [->|?]].
  - destruct (Add_update_miss c k v Hwf Hc)
      as (c1 & HA & Hwf1 & Hll & Hent & Hca & _ & Hmb & Hcb).
    exists c1. split_and!; try done.
    + by rewrite filter_key_absent.
    + rewrite Hll. cbn [length]. lia.
    + rewrite Hca. by rewrite dom_insert_L.
Qed.

(** *** The eviction loop *)

Lemma over_budget_false_iff f :
  over_budget f = false ↔ maxBytes f = 0 ∨ nbytes f ≤ maxBytes f.
Proof.
  unfold over_budget.
  destruct (Z.eqb_spec (maxBytes f) 0), (Z.ltb_spec (maxBytes f) (nbytes f));
    cbn; split; try done; try tauto; intros; lia.
Qed.

Lemma over_budget_true f :
  over_budget f = true → maxBytes f ≠ 0 ∧ maxBytes f < nbytes f.
Proof.
  intros [Hne%negb_true_iff%Z.eqb_neq Hlt%Z.ltb_lt]%andb_true_iff. done.
Qed.

Lemma wf_empty_nbytes f : wf f → ll f = [] → nbytes f = 0.
Proof.
  intros Hwf Hll. rewrite (wf_bytes _ Hwf). unfold live_bytes, entries.
  by rewrite Hll.
Qed.

Lemma evict_loop_sound fuel : ∀ c w c' w',
  wf c → evict_loop fuel c w = Returned (c', w') →
  wf c' ∧ over_budget c' = false ∧
  (∀ kv, kv ∈ entries c' → kv ∈ entries c) ∧
  maxBytes c' = maxBytes c ∧ OnEvicted c' = OnEvicted c.
Proof.
  induction fuel as [|fuel IH]; intros c w c' w' Hwf; cbn [evict_loop];
    destruct (over_budget c) eqn:Hob; try done;
    try (intros [= <- <-]; by split_and!).
  destruct (last (ll c)) as [e|] eqn:Hlast.
  - apply last_Some in Hlast as [l Hll].
    destruct (RemoveOldest_snoc c w l e Hwf Hll)
      as (kv & c1 & w1 & _ & HR & Hwf1 & Hp & Hent & _ & _ & _ & _ & Hmb & Hcb).
    rewrite HR. intros Hloop.
    destruct (IH _ _ _ _ Hwf1 Hloop) as (Hwf' & Hob' & Hsub & Hmb' & Hcb').
    split_and!; try done; try congruence.
    intros kv' Hin. apply Hsub in Hin. rewrite Hp in Hin.
    rewrite Hent, elem_of_app. by left.
  - apply last_None in Hlast.
    rewrite RemoveOldest_empty by done. by apply IH.
Qed.

Lemma evict_loop_terminates fuel : ∀ c w,
  wf c → 0 ≤ maxBytes c → (length (ll c) ≤ fuel)%nat →
  ∃ c' w', evict_loop fuel c w = Returned (c', w').
Proof.
  induction fuel as [|fuel IH]; intros c w Hwf Hmb Hlen; cbn [evict_loop];
    destruct (over_budget c) eqn:Hob; eauto.
  - destruct (ll c) eqn:Hll; [|cbn in Hlen; lia].
    apply over_budget_true in Hob as [Hne Hlt].
    rewrite (wf_empty_nbytes _ Hwf Hll) in Hlt. lia.
  - destruct (last (ll c)) as [e|] eqn:Hlast.
    + apply last_Some in Hlast as [l Hll].
      destruct (RemoveOldest_snoc c w l e Hwf Hll)
        as (kv & c1 & w1 & _ & HR & Hwf1 & _ & _ & Hlen1 & _ & _ & _ & Hmb1 & _).
      rewrite HR. apply IH; [done | lia |].
      rewrite Hll, length_app in Hlen. cbn in Hlen. lia.
    + apply last_None in Hlast.
      apply over_budget_true in Hob as [Hne Hlt].
      rewrite (wf_empty_nbytes _ Hwf Hlast) in Hlt. lia.
Qed.

Lemma evict_loop_idle fuel c w :
  over_budget c = false →
  evict_loop fuel c w = Returned (c, w) ∧ evict_events fuel c w = [].
Proof.
  intros Hob. destruct fuel; cbn [evict_loop evict_events]; by rewrite Hob.
Qed.

Lemma evict_loop_spins c w :
  ll c = [] → over_budget c = true →
  ∀ fuel, evict_loop fuel c w = OutOfFuel (c, w).
Proof.
  intros Hll Hob fuel.
  induction fuel as [|fuel IH]; cbn [evict_loop]; rewrite Hob; [done|].
  by rewrite RemoveOldest_empty.
Qed.

Lemma Add_sound fuel c k v w c' w' :
  wf c → Add fuel c k v w = Returned (c', w') →
  wf c' ∧ over_budget c' = false ∧
  (∀ kv, kv ∈ entries c' →
         kv = mkEntry k v ∨ (key kv ≠ k ∧ kv ∈ entries c)) ∧
  dom (cache c') ⊆ {[k]} ∪ dom (cache c) ∧
  maxBytes c' = maxBytes c ∧ OnEvicted c' = OnEvicted c.
Proof.
  intros Hwf. unfold Add.
  destruct (Add_update_spec c k v Hwf)
    as (c1 & HA & Hwf1 & Hent & _ & Hdom & Hmb & Hcb).
  rewrite HA. intros Hloop.
  destruct (evict_loop_sound _ _ _ _ _ Hwf1 Hloop)
    as (Hwf' & Hob' & Hsub & Hmb' & Hcb').
  split_and!; try done; try congruence.
  - intros kv Hin. apply Hsub in Hin. rewrite Hent in Hin.
    apply elem_of_cons in Hin as [->|Hin]; [by left|].
    right. by apply list_elem_of_filter in Hin.
  - rewrite <- Hdom. apply elem_of_subseteq. intros x.
    rewrite (wf_keys_dom _ Hwf'), (wf_keys_dom _ Hwf1), !elem_of_list_to_set.
    intros (kv & -> & Hin)%list_elem_of_fmap.
    by apply list_elem_of_fmap_2, Hsub.
Qed.

Lemma Add_terminates fuel c k v w :
  wf c → 0 ≤ maxBytes c → (S (length (ll c)) ≤ fuel)%nat →
  ∃ c' w', Add fuel c k v w = Returned (c', w').
Proof.
  intros Hwf Hmb Hlen. unfold Add.
  destruct (Add_update_spec c k v Hwf)
    as (c1 & HA & Hwf1 & _ & Hlen1 & _ & Hmb1 & _).
  rewrite HA. apply evict_loop_terminates; [done | lia | lia].
Qed.

Lemma history_wf mb cb w0 h c w :
  history mb cb w0 h c w → wf c ∧ maxBytes c = mb ∧ OnEvicted c = cb.
Proof.
  induction 1 as [|h c w fuel k v c' w' _ (Hwf & Hmb & Hcb) HA
                  |h c w k c' r _ (Hwf & Hmb & Hcb) HG
                  |h c w c' w' _ (Hwf & Hmb & Hcb) HR].
  - split_and!; [apply wf_New | done | done].
  - destruct (Add_sound _ _ _ _ _ _ _ Hwf HA) as (Hwf' & _ & _ & _ & Hmb' & Hcb').
    split_and!; [done | congruence | congruence].
  - destruct (reenter_spec [k] c Hwf) as (c1 & Hre & Hwf1 & _ & _ & _ & _ & Hmb1 & Hcb1).
    cbn [reenter] in Hre. rewrite HG in Hre. cbn in Hre. injection Hre as <-.
    split_and!; [done | congruence | congruence].
  - destruct (last (ll c)) as [e|] eqn:Hlast.
    + apply last_Some in Hlast as [l Hll].
      destruct (RemoveOldest_snoc c w l e Hwf Hll)
        as (kv & c1 & w1 & _ & HR' & Hwf1 & _ & _ & _ & _ & _ & _ & Hmb1 & Hcb1).
      rewrite HR' in HR. injection HR as <- <-.
      split_and!; [done | congruence | congruence].
    + apply last_None in Hlast.
      rewrite (RemoveOldest_empty c w Hlast) in HR. by injection HR as <- <-.
Qed.

(** *** Properties of a history and the entries it leaves

    A property of the history and the entries that the steps of the
    operations keep is kept by every history, the callback's calls of [Get]
    included. *)

Section entries_invariant.
Variable P : list (event V) → list (entry V) → Prop.
Hypothesis P_add : ∀ h es k v,
  NoDup (key <$> es) → P h es →
  P (EvAdd k v :: h) (mkEntry k v :: filter (λ kv, key kv ≠ k) es).
Hypothesis P_hit : ∀ h es k v,
  NoDup (key <$> es) → mkEntry k v ∈ es → P h es →
  P (EvGet k true :: h) (mkEntry k v :: filter (λ kv, key kv ≠ k) es).
Hypothesis P_miss : ∀ h es k,
  k ∉ key <$> es → P h es → P (EvGet k false :: h) es.
Hypothesis P_evict : ∀ h es kv, P h (es ++ [kv]) → P h es.
Hypothesis P_call : ∀ h es, P h es → P (EvRemoveOldest :: h) es.

Lemma Get_P c k c' r h :
  wf c → P h (entries c) → Get c k = Some (c', r) →
  P (EvGet k r.2 :: h) (entries c').
Proof.
  intros Hwf HP HG. destruct (cache c !! k) as [e|] eqn:Hc.
  - destruct (Get_hit c k e Hwf Hc) as (v0 & c1 & Hl & HG' & _ & _ & Hent & _).
    rewrite HG' in HG. injection HG as <- <-. cbn [snd]. rewrite Hent.
    apply P_hit; [by apply wf_keys_NoDup | | done].
    apply wf_entry_lookup; eauto.
  - rewrite (Get_miss c k Hc) in HG. injection HG as <- <-. cbn [snd].
    apply P_miss; [|done].
    apply not_elem_of_dom in Hc.
    by rewrite (wf_keys_dom _ Hwf), elem_of_list_to_set in Hc.
Qed.

Lemma reenter_P ks : ∀ c c' h,
  wf c → P h (entries c) → reenter c ks = Some c' →
  P (reenter_events c ks ++ h) (entries c').
Proof.
  induction ks as [|k ks IH]; intros c c' h Hwf HP; cbn [reenter reenter_events].
  - by intros [= <-].
  - destruct (Get c k) as [[c1 r]|] eqn:HG; [|done].
    cbn [mbind option_bind]. intros Hre. rewrite <- app_assoc. cbn [app].
    apply (IH c1); [|by eapply Get_P|done].
    destruct (reenter_spec [k] c Hwf) as (c2 & Hre2 & Hwf2 & _).
    cbn [reenter] in Hre2. rewrite HG in Hre2. cbn in Hre2. by injection Hre2 as <-.
Qed.

Lemma RemoveOldest_P c w c' w' h :
  wf c → P h (entries c) → RemoveOldest c w = Some (c', w') →
  P (RemoveOldest_events c w ++ h) (entries c').
Proof.
  intros Hwf HP HR. destruct (last (ll c)) as [e|] eqn:Hlast.
  - apply last_Some in Hlast as [l Hll].
    assert (e ∈ ll c) as He by (rewrite Hll, elem_of_app; right; left).
    destruct (wf_alloc _ Hwf e He) as [kv Hl].
    destruct (unlink_spec c l e kv Hwf Hll Hl) as (Hwfu & _ & Hent & _).
    destruct (RemoveOldest_unfold c w l e kv Hll Hl) as [HR' ->].
    rewrite HR' in HR. rewrite Hent in HP. apply P_evict in HP.
    destruct (OnEvicted c) as [g|].
    + destruct (reenter _ _) as [c1|] eqn:Hre; [|done].
      cbn in HR. injection HR as <- <-.
      by apply (reenter_P _ (mkCache (unlink c e kv) (Some g)) _ _ Hwfu HP Hre).
    + by injection HR as <- <-.
  - apply last_None in Hlast.
    rewrite (RemoveOldest_empty c w Hlast) in HR. injection HR as <- <-.
    by rewrite RemoveOldest_events_empty.
Qed.

Lemma evict_loop_P fuel : ∀ c w c' w' h,
  wf c → P h (entries c) → evict_loop fuel c w = Returned (c', w') →
  P (evict_events fuel c w ++ h) (entries c').
Proof.
  induction fuel as [|fuel IH]; intros c w c' w' h Hwf HP;
    cbn [evict_loop evict_events]; destruct (over_budget c) eqn:Hob.
  - done.
  - by intros [= <- <-].
  - destruct (RemoveOldest c w) as [[c1 w1]|] eqn:HR; [|done].
    intros Hloop. rewrite <- app_assoc.
    apply (IH c1 w1 c' w'); [| by eapply RemoveOldest_P | done].
    destruct (last (ll c)) as [e|] eqn:Hlast.
    + apply last_Some in Hlast as [l Hll].
      destruct (RemoveOldest_snoc c w l e Hwf Hll)
        as (kv & c2 & w2 & _ & HR' & Hwf2 & _).
      rewrite HR' in HR. by injection HR as <- <-.
    + apply last_None in Hlast.
      rewrite (RemoveOldest_empty c w Hlast) in HR. by injection HR as <- <-.
  - by intros [= <- <-].
Qed.

Lemma history_P mb cb w0 h c w :
  P [] [] → history mb cb w0 h c w → P h (entries c).
Proof.
  intros Pnew.
  induction 1 as [|h c w fuel k v c' w' Hh IH HA
                  |h c w k c' r Hh IH HG
                  |h c w c' w' Hh IH HR];
    try (apply history_wf in Hh as (Hwf & _)).
  - done.
  - unfold Add in HA. unfold Add_events.
    destruct (Add_update_spec c k v Hwf) as (c1 & HU & Hwf1 & Hent & _).
    rewrite HU in HA |- *.
    apply (evict_loop_P fuel c1 w c' w' _ Hwf1); [|done].
    rewrite Hent. apply P_add; [by apply wf_keys_NoDup | done].
  - by eapply Get_P.
  - apply (RemoveOldest_P c w c' w' _ Hwf); [|done]. by apply P_call.
Qed.

End entries_invariant.

(** *** The recency order *)

Lemma recent_weaken (h : list (event V)) b b' (es : list (entry V)) :
  (b ≤ b')%nat → recent h b es → recent h b' es.
Proof.
  intros Hb. destruct es as [|kv es]; [done|].
  intros (t & Ht & Hlt & Hrec). exists t. split_and!; [done | lia | done].
Qed.

Lemma recent_filter (P : entry V → Prop) `{!∀ kv, Decision (P kv)}
    (h : list (event V)) (es : list (entry V)) :
  ∀ b, recent h b es → recent h b (filter P es).
Proof.
  induction es as [|kv es IH]; intros b; [done|].
  intros (t & Ht & Hlt & Hrec). rewrite filter_cons.
  destruct (decide (P kv)).
  - exists t. split_and!; [done | done | by apply IH].
  - apply (recent_weaken h t); [lia | by apply IH].
Qed.

Lemma recent_app_l (h : list (event V)) (es1 es2 : list (entry V)) :
  ∀ b, recent h b (es1 ++ es2) → recent h b es1.
Proof.
  induction es1 as [|kv es1 IH]; intros b; [done|].
  intros (t & Ht & Hlt & Hrec). exists t. split_and!; [done | done | by apply IH].
Qed.

Lemma recent_ext (h h' : list (event V)) (es : list (entry V)) :
  (∀ kv, kv ∈ es → last_use h' (key kv) = last_use h (key kv)) →
  ∀ b, recent h b es → recent h' b es.
Proof.
  induction es as [|kv es IH]; intros Hext b; [done|].
  intros (t & Ht & Hlt & Hrec). exists t. split_and!; [|done|].
  - rewrite Hext; [done | left].
  - apply IH; [|done]. intros kv' Hin. apply Hext. by right.
Qed.

Lemma recent_snoc_min (h : list (event V)) (es : list (entry V)) kv :
  ∀ b, recent h b (es ++ [kv]) →
  ∃ t, last_use h (key kv) = Some t ∧ (t < b)%nat ∧
       ∀ kv', kv' ∈ es → ∃ t', last_use h (key kv') = Some t' ∧ (t < t')%nat.
Proof.
  induction es as [|kv0 es IH]; intros b.
  - intros (t & Ht & Hlt & _). exists t. split_and!; [done | done |].
    intros kv' Hin. by apply elem_of_nil in Hin.
  - intros (t0 & Ht0 & Hlt0 & Hrec).
    destruct (IH _ Hrec) as (t & Ht & Hlt & Hall).
    exists t. split_and!; [done | lia |].
    intros kv' [->|Hin]%elem_of_cons; [|by apply Hall].
    exists t0. split; [done | lia].
Qed.

Lemma recent_idle (h : list (event V)) ev (es : list (entry V)) :
  (∀ k, uses k ev = false) →
  recent h (length h) es → recent (ev :: h) (S (length h)) es.
Proof.
  intros Hidle Hrec. apply (recent_weaken _ (length h)); [lia|].
  apply (recent_ext h); [|done].
  intros kv _. cbn [last_use]. by rewrite Hidle.
Qed.

Lemma recent_touch (h : list (event V)) ev k v (es : list (entry V)) :
  uses k ev = true → (∀ k', k' ≠ k → uses k' ev = false) →
  recent h (length h) es →
  recent (ev :: h) (S (length h))
    (mkEntry k v :: filter (λ kv, key kv ≠ k) es).
Proof.
  intros Hk Hother Hrec. exists (length h). split_and!.
  - cbn [last_use key]. by rewrite Hk.
  - lia.
  - apply (recent_ext h).
    + intros kv [Hne _]%list_elem_of_filter. cbn [last_use].
      by rewrite Hother.
    + by apply recent_filter.
Qed.

(** *** What every history keeps *)

Lemma history_inv mb cb w0 h c w :
  history mb cb w0 h c w →
  wf c ∧ maxBytes c = mb ∧ OnEvicted c = cb ∧
  recent h (length h) (entries c).
Proof.
  intros Hh. destruct (history_wf _ _ _ _ _ _ Hh) as (Hwf & Hmb & Hcb).
  split_and!; try done.
  apply (history_P (λ h es, recent h (length h) es)) in Hh; try done.
  - intros h' es k' v' _ Hrec. cbn [length].
    apply recent_touch; [by apply bool_decide_eq_true | | done].
    intros k'' Hne. apply bool_decide_eq_false. congruence.
  - intros h' es k' v' _ _ Hrec. cbn [length].
    apply recent_touch; [| |done].
    + cbn. by rewrite bool_decide_eq_true_2.
    + intros k'' Hne. cbn. rewrite bool_decide_eq_false_2; [done | congruence].
  - intros h' es k' _ Hrec. cbn [length]. apply recent_idle; [|done].
    intros k''. cbn. apply andb_false_r.
  - intros h' es kv Hrec. by apply recent_app_l in Hrec.
  - intros h' es Hrec. cbn [length]. by apply recent_idle.
Qed.

Lemma run_history fuel mb cb w0 (h : list (event V)) : ∀ c w,
  run fuel mb cb w0 h = Some (c, w) →
  history mb cb w0 (run_events fuel mb cb w0 h) c w.
Proof.
  induction h as [|ev h IH]; intros c w.
  - intros [= <- <-]. constructor.
  - cbn [run foldr run_events]. fold (run fuel mb cb w0 h).
    destruct (run fuel mb cb w0 h) as [[c0 w1]|]; [|done].
    specialize (IH _ _ eq_refl). cbn [mbind option_bind].
    destruct ev as [k v|k ok|]; cbn [exec exec_events fst snd];
      rewrite <- ?app_assoc; cbn [app].
    + destruct (Add fuel c0 k v w1) as [[c' w']| |] eqn:HA; [|done..].
      intros [= <- <-]. by eapply history_Add.
    + destruct (Get c0 k) as [[c' r]|] eqn:HG; [|done].
      cbn [mbind option_bind]. case_bool_decide as Hok; [|done].
      intros [= <- <-]. subst ok. by eapply history_Get.
    + intros HR. by eapply history_RemoveOldest.
Qed.

Lemma total_size_nonneg (es : list (entry V)) :
  Forall (λ kv, 0 ≤ entry_size kv) es → 0 ≤ total_size es.
Proof.
  induction 1 as [|kv es Hkv _ IH]; [done|].
  rewrite total_size_cons. lia.
Qed.

(** On a new cache with a negative budget the loop of [Add] evicts the
    entry just added and then never ends. *)
Lemma Add_New_negative_spins mb cb k v w :
  mb < 0 → 0 ≤ Len v → in_int64 (entry_size (mkEntry k v)) →
  ∀ fuel, ∃ s, Add fuel (New mb cb) k v w = OutOfFuel s.
Proof.
  intros Hneg Hlen Hfit fuel. unfold Add.
  destruct (Add_update_miss (New mb cb) k v (wf_New mb cb))
    as (c1 & HA & Hwf1 & Hll & Hent & _ & _ & Hmb & Hcb); [done|].
  rewrite HA. cbn in Hll, Hmb.
  assert (nbytes c1 = entry_size (mkEntry k v)) as Hnb.
  { rewrite (wf_bytes _ Hwf1). unfold live_bytes. rewrite Hent.
    cbn. rewrite Z.add_0_r. by apply int64_id. }
  assert (over_budget c1 = true) as Hob.
  { unfold over_budget. rewrite Hmb, Hnb. unfold entry_size in *. cbn in *.
    apply andb_true_iff. split.
    - apply negb_true_iff, Z.eqb_neq. lia.
    - apply Z.ltb_lt. lia. }
  destruct fuel as [|fuel]; cbn [evict_loop]; rewrite Hob; [eauto|].
  destruct (RemoveOldest_snoc c1 w [] _ Hwf1 Hll)
    as (kv & c2 & w2 & _ & HR & Hwf2 & _ & _ & Hlen2 & _ & _ & _ & Hmb2 & _).
  rewrite HR. eexists. apply nil_length_inv in Hlen2.
  apply evict_loop_spins; [done|].
  unfold over_budget. rewrite (wf_empty_nbytes _ Hwf2 Hlen2), Hmb2, Hmb.
  apply andb_true_iff. split.
  - apply negb_true_iff, Z.eqb_neq. lia.
  - apply Z.ltb_lt. lia.
Qed.

(** *** Callbacks that make no call on the cache *)

Lemma evict_loop_quiet fuel : ∀ c w c' w',
  wf c → quiet (OnEvicted c) →
  evict_loop fuel c w = Returned (c', w') →
  ∃ evicted calls,
    w' = foldl (λ w p, match OnEvicted c with
                       | Some g => (g (key p.1) (value p.1) p.2 w).1
                       | None => w
                       end) w calls ∧
    entries c = entries c' ++ evicted ∧
    calls.*1 = reverse evicted ∧
    Forall (λ p, cache p.2 !! key p.1 = None ∧ p.1 ∉ entries p.2) calls ∧
    evict_events fuel c w = [] ∧
    (entries c' = [] → ∀ kv0 rest, entries c = kv0 :: rest →
       maxBytes c ≠ 0 ∧ maxBytes c < int64 (entry_size kv0)) ∧
    (∀ ev1 kv ev2, evicted = ev1 ++ kv :: ev2 →
       maxBytes c ≠ 0 ∧
       maxBytes c < int64 (total_size (entries c' ++ ev1 ++ [kv]))).
Proof.
  induction fuel as [|fuel IH]; intros c w c' w' Hwf Hq;
    cbn [evict_loop evict_events]; destruct (over_budget c) eqn:Hob.
  1: done.
  1, 3: intros [= <- <-]; exists [], []; rewrite app_nil_r;
    split_and!; try done;
    [ by intros -> ?? [=] | intros ev1 kv ev2 Hnil; by destruct ev1 ].
  destruct (last (ll c)) as [e|] eqn:Hlast.
  - apply last_Some in Hlast as [l Hll].
    assert (e ∈ ll c) as He by (rewrite Hll, elem_of_app; right; left).
    destruct (wf_alloc _ Hwf e He) as [kv0 Hl].
    destruct (unlink_spec c l e kv0 Hwf Hll Hl) as (Hwfu & Hllu & Hent & Hnb).
    destruct (RemoveOldest_quiet c w l e kv0 Hq Hll Hl) as [HR HE].
    rewrite HR, HE, app_nil_r. intros Hloop.
    destruct (IH (mkCache (unlink c e kv0) (OnEvicted c)) _ c' w' Hwfu Hq Hloop)
      as (ev & calls & Hw & Hent' & Hcalls & Hviews & Hevs & Hhead & Hmin).
    cbn [fields OnEvicted] in Hw, Hent', Hevs, Hhead, Hmin.
    change (maxBytes (unlink c e kv0)) with (maxBytes c) in Hhead, Hmin.
    exists (ev ++ [kv0]), ((kv0, unlink c e kv0) :: calls).
    apply over_budget_true in Hob as [Hne Hlt].
    split_and!; try done.
    + by rewrite Hent, Hent', app_assoc.
    + rewrite fmap_cons, reverse_app, Hcalls. done.
    + constructor; [|done]. cbn. split.
      * apply lookup_delete_eq.
      * intros Hin. pose proof (wf_keys_NoDup _ Hwf) as Hnd.
        rewrite Hent, fmap_app in Hnd.
        apply NoDup_app in Hnd as (_ & Hdisj & _).
        apply (Hdisj (key kv0)); [by apply list_elem_of_fmap_2 | left].
    + intros Hnil kv1 rest Hc.
      destruct (entries (unlink c e kv0)) as [|kv2 es2] eqn:He1.
      * rewrite Hent in Hc. cbn in Hc. injection Hc as <- <-.
        rewrite (wf_bytes _ Hwf) in Hlt. unfold live_bytes in Hlt.
        rewrite Hent in Hlt. cbn in Hlt. by rewrite Z.add_0_r in Hlt.
      * rewrite Hent in Hc. cbn in Hc. injection Hc as <- <-.
        by eapply Hhead.
    + intros ev1 kv ev2 Hsplit.
      destruct ev2 as [|x ev2 _] using rev_ind.
      * apply app_inj_tail in Hsplit as [<- <-].
        rewrite (wf_bytes _ Hwf) in Hlt. unfold live_bytes in Hlt.
        by rewrite Hent, Hent', <- app_assoc in Hlt.
      * apply (Hmin ev1 kv ev2).
        replace (ev1 ++ kv :: ev2 ++ [x])
          with ((ev1 ++ kv :: ev2) ++ [x]) in Hsplit
          by (by rewrite <- app_assoc).
        by apply app_inj_tail in Hsplit as [? _].
  - apply last_None in Hlast.
    rewrite RemoveOldest_empty, RemoveOldest_events_empty, app_nil_r by done.
    by apply IH.
Qed.

Lemma Add_quiet fuel c k v w c' w' :
  wf c → quiet (OnEvicted c) →
  Add fuel c k v w = Returned (c', w') →
  ∃ evicted calls,
    w' = foldl (λ w p, match OnEvicted c with
                       | Some g => (g (key p.1) (value p.1) p.2 w).1
                       | None => w
                       end) w calls ∧
    mkEntry k v :: filter (λ kv, key kv ≠ k) (entries c) = entries c' ++ evicted ∧
    calls.*1 = reverse evicted ∧
    Forall (λ p, cache p.2 !! key p.1 = None ∧ p.1 ∉ entries p.2) calls ∧
    Add_events fuel c k v w = [] ∧
    (entries c' = [] →
     maxBytes c ≠ 0 ∧ maxBytes c < int64 (entry_size (mkEntry k v))) ∧
    (∀ ev1 kv ev2, evicted = ev1 ++ kv :: ev2 →
       maxBytes c ≠ 0 ∧
       maxBytes c < int64 (total_size (entries c' ++ ev1 ++ [kv]))).
Proof.
  intros Hwf Hq. unfold Add, Add_events.
  destruct (Add_update_spec c k v Hwf)
    as (c1 & HA & Hwf1 & Hent & _ & _ & Hmb & Hcb).
  rewrite HA. intros Hloop. rewrite <- Hcb in Hq.
  destruct (evict_loop_quiet _ _ _ _ _ Hwf1 Hq Hloop)
    as (ev & calls & Hw & Hent' & Hcalls & Hviews & Hevs & Hhead & Hmin).
  rewrite Hcb in Hw. rewrite Hmb in Hhead, Hmin. rewrite Hent in Hent'.
  exists ev, calls. split_and!; try done.
  intros Hnil. by eapply Hhead.
Qed.

Lemma RemoveOldest_n_drains n : ∀ c w,
  wf c → quiet (OnEvicted c) → (length (ll c) ≤ n)%nat →
  ∃ c' calls,
    RemoveOldest_n n c w
    = Some (c', foldl (λ w p, match OnEvicted c with
                              | Some g => (g (key p.1) (value p.1) p.2 w).1
                              | None => w
                              end) w calls) ∧
    wf c' ∧ ll c' = [] ∧ calls.*1 = reverse (entries c).
Proof.
  induction n as [|n IH]; intros c w Hwf Hq Hlen; cbn [RemoveOldest_n].
  - destruct (ll c) eqn:Hll; [|cbn in Hlen; lia].
    exists c, []. split_and!; try done. unfold entries. by rewrite Hll.
  - destruct (last (ll c)) as [e|] eqn:Hlast.
    + apply last_Some in Hlast as [l Hll].
      assert (e ∈ ll c) as He by (rewrite Hll, elem_of_app; right; left).
      destruct (wf_alloc _ Hwf e He) as [kv Hl].
      destruct (unlink_spec c l e kv Hwf Hll Hl) as (Hwfu & Hllu & Hent & _).
      destruct (RemoveOldest_quiet c w l e kv Hq Hll Hl) as [HR _].
      rewrite HR. cbn [mbind option_bind].
      assert (length (ll (mkCache (unlink c e kv) (OnEvicted c))) ≤ n)%nat
        as Hlen'.
      { cbn [fields]. rewrite Hllu. rewrite Hll, length_app in Hlen.
        cbn in Hlen. lia. }
      destruct (IH (mkCache (unlink c e kv) (OnEvicted c))
                  (match OnEvicted c with
                   | Some g => (g (key kv) (value kv) (unlink c e kv) w).1
                   | None => w
                   end) Hwfu Hq Hlen')
        as (c' & calls & HD & Hwf' & Hll' & Hcalls).
      exists c', ((kv, unlink c e kv) :: calls).
      split_and!; try done.
      by rewrite fmap_cons, Hcalls, Hent, reverse_app.
    + apply last_None in Hlast.
      rewrite RemoveOldest_empty by done. cbn [mbind option_bind].
      apply IH; [done | done |]. rewrite Hlast. cbn. lia.
Qed.

End lru_facts.

(** ** The cache: the specification's properties *)

Section lru_properties.
Context {V : Type} `{!Value V} {W : Type}.
Implicit Types (c : Cache V W) (kv : entry V) (w : W) (h : list (event V)).
Implicit Types (k : string) (v : V) (e : nat) (cb : option (Callback V W)).

(** C1 (accounting invariant).  After every sequence of [Add], [Get] and
    [RemoveOldest] calls on a new cache, [nbytes] is the sum of
    [len(key) + value.Len()] over the live entries, as an [int64]; it is
    that sum itself whenever the sum fits an [int64]. *)
Theorem accounting_invariant mb cb w0 h c w :
  history mb cb w0 h c w →
  nbytes c = int64 (live_bytes c) ∧
  (in_int64 (live_bytes c) → nbytes c = live_bytes c).
Proof.
  intros (Hwf & _)%history_inv.
  split; [apply Hwf|].
  intros Hfit. rewrite (wf_bytes _ Hwf). by apply int64_id.
Qed.

(** C8 (bijection invariant).  After every sequence of calls the keys of
    the map are the keys of the list's entries, no key and no node occurs
    twice in the list, every node of the list holds an entry, and the map
    sends a key to a node exactly when that node is in the list and holds
    the key. *)
Theorem bijection_invariant mb cb w0 h c w :
  history mb cb w0 h c w →
  dom (cache c) = list_to_set (key <$> entries c) ∧
  NoDup (key <$> entries c) ∧
  NoDup (ll c) ∧
  length (entries c) = length (ll c) ∧
  (∀ k e, cache c !! k = Some e ↔
          e ∈ ll c ∧ ∃ v, elems c !! e = Some (mkEntry k v)).
Proof.
  intros (Hwf & _)%history_inv. split_and!.
  - by apply wf_keys_dom.
  - by apply wf_keys_NoDup.
  - apply Hwf.
  - by apply wf_entries_length.
  - apply Hwf.
Qed.

(** C7 ([Get]).  In every reachable state: when the key is in the map,
    [Get] returns the stored value and [true] and moves the key's node to
    the front of the list, changing nothing else; when it is not, [Get]
    returns no value and [false] and the state is unchanged. *)
Theorem Get_semantics mb cb w0 h c w k :
  history mb cb w0 h c w →
  match cache c !! k with
  | Some e =>
      ∃ v, elems c !! e = Some (mkEntry k v) ∧ e ∈ ll c ∧
           Get c k
           = Some (mkCache
                     (mkFields (maxBytes c) (nbytes c)
                        (e :: Remove e (ll c)) (elems c) (cache c))
                     (OnEvicted c),
                   (Some v, true)) ∧
           entries (mkFields (maxBytes c) (nbytes c)
                      (e :: Remove e (ll c)) (elems c) (cache c))
           = mkEntry k v :: filter (λ kv, key kv ≠ k) (entries c)
  | None => Get c k = Some (c, (None, false))
  end.
Proof.
  intros (Hwf & _)%history_inv.
  destruct (cache c !! k) as [e|] eqn:Hc; [|by apply Get_miss].
  destruct (Get_hit c k e Hwf Hc)
    as (v0 & c1 & Hl & HG & _ & Hll & Hent & _ & Hel & _).
  pose proof Hc as [He _]%(wf_index _ Hwf).
  exists v0. split_and!; [done | done | |].
  - unfold Get. rewrite Hc, Hl. cbn [mbind option_bind value].
    by rewrite MoveToFront_in.
  - rewrite <- Hent. unfold entries. cbn [ll elems]. by rewrite Hll, Hel.
Qed.

(** C2 (recency law and [RemoveOldest]).  In every reachable state with a
    non-empty list, [RemoveOldest] takes the back node off the list,
    deletes its key from the map and subtracts [len(key) + value.Len()]
    from [nbytes]; then, on the fields [f] with the removal done, it calls
    the callback with the key and the value of the entry removed, and makes
    the calls of [Get] that the callback makes.  These calls change the
    order of the list only, and with a callback that makes none the fields
    left are [f].  The key removed is the one whose latest [Add] or
    successful [Get] is earlier than that of every other live key.  On an
    empty list nothing changes and the callback is not called. *)
Theorem RemoveOldest_semantics mb cb w0 h c w :
  history mb cb w0 h c w →
  match Back (ll c) with
  | None => ll c = [] ∧ RemoveOldest c w = Some (c, w)
  | Some e =>
      ∃ l kv f,
        ll c = l ++ [e] ∧ elems c !! e = Some kv ∧
        cache c !! key kv = Some e ∧
        ll f = l ∧ entries c = entries f ++ [kv] ∧
        cache f = delete (key kv) (cache c) ∧ elems f = elems c ∧
        nbytes f = int64 (nbytes c - entry_size kv) ∧
        maxBytes f = maxBytes c ∧
        RemoveOldest c w
        = match cb with
          | Some g =>
              c' ← reenter (mkCache f cb) (g (key kv) (value kv) f w).2;
              Some (c', (g (key kv) (value kv) f w).1)
          | None => Some (mkCache f cb, w)
          end ∧
        (∃ c' w',
           RemoveOldest c w = Some (c', w') ∧
           entries c' ≡ₚ entries f ∧ cache c' = cache f ∧
           elems c' = elems f ∧ nbytes c' = nbytes f ∧
           maxBytes c' = maxBytes c ∧ OnEvicted c' = cb ∧
           (quiet cb → fields c' = f)) ∧
        ∀ k', k' ∈ dom (cache c) → k' ≠ key kv →
              ∃ t t', last_use h (key kv) = Some t ∧
                      last_use h k' = Some t' ∧ (t < t')%nat
  end.
Proof.
  intros (Hwf & Hmb & Hcb & Hrec)%history_inv. unfold Back.
  destruct (last (ll c)) as [e|] eqn:Hlast.
  - apply last_Some in Hlast as [l Hll].
    destruct (RemoveOldest_snoc c w l e Hwf Hll)
      as (kv & c' & w' & Hl & HR & Hwf' & Hp & Hent & _ & Hca & Hel & Hnb
          & Hmb' & Hcb').
    destruct (unlink_spec c l e kv Hwf Hll Hl) as (_ & Hllu & _ & Hnbu).
    destruct (RemoveOldest_unfold c w l e kv Hll Hl) as [HU _].
    exists l, kv, (unlink c e kv). rewrite <- Hcb. split_and!; try done.
    + apply (wf_index _ Hwf). split.
      * rewrite Hll, elem_of_app. right. left.
      * exists (value kv). by destruct kv.
    + exists c', w'. split_and!; try done.
      * by rewrite Hnb, Hnbu.
      * intros Hq.
        destruct (RemoveOldest_quiet c w l e kv Hq Hll Hl) as [HQ _].
        rewrite HQ in HR. by injection HR as <- _.
    + intros k' Hk' Hne. rewrite Hent in Hrec.
      apply recent_snoc_min in Hrec as (t & Ht & _ & Hall).
      rewrite (wf_keys_dom _ Hwf), elem_of_list_to_set in Hk'.
      apply list_elem_of_fmap in Hk' as (kv' & -> & Hin).
      rewrite Hent, elem_of_app, list_elem_of_singleton in Hin.
      destruct Hin as [Hin| ->]; [|done].
      destruct (Hall kv' Hin) as (t' & Ht' & Hlt). eauto.
  - apply last_None in Hlast. split; [done|]. by apply RemoveOldest_empty.
Qed.

(** C3 (budget invariant).  On a cache built with [maxBytes > 0], every
    call of [Add] in a reachable state returns, and when it has returned
    [nbytes <= maxBytes]. *)
Theorem budget_invariant mb cb w0 h c w k v :
  history mb cb w0 h c w → 0 < mb →
  (∃ fuel c' w', Add fuel c k v w = Returned (c', w')) ∧
  (∀ fuel c' w', Add fuel c k v w = Returned (c', w') →
                 maxBytes c' = mb ∧ nbytes c' ≤ maxBytes c').
Proof.
  intros (Hwf & Hmb & _)%history_inv Hpos. split.
  - exists (S (length (ll c))). apply Add_terminates; [done | lia | done].
  - intros fuel c' w' HA.
    destruct (Add_sound _ _ _ _ _ _ _ Hwf HA) as (_ & Hob & _ & _ & Hmb' & _).
    split; [congruence|].
    apply over_budget_false_iff in Hob as [Hz|Hle]; [lia | done].
Qed.

(** C4, as amended (no automatic eviction when [maxBytes = 0]).  On a cache
    built with [maxBytes = 0], along every sequence of [Add] and [Get]
    calls the callback is never called and no entry is removed: the keys
    of the map are all the keys ever added, one list node each, and every
    further [Add] returns without any iteration of the eviction loop. *)
Theorem unbounded_never_evicts cb w0 h c w :
  history 0 cb w0 h c w → no_RemoveOldest h = true →
  w = w0 ∧ dom (cache c) = added_keys h ∧
  length (ll c) = size (added_keys h) ∧
  ∀ k v, ∃ c', Add 0 c k v w = Returned (c', w) ∧
               entries c' = mkEntry k v :: filter (λ kv, key kv ≠ k) (entries c).
Proof.
  intros Hh Hno.
  assert (w = w0 ∧ dom (cache c) = added_keys h) as [-> Hdom].
  { induction Hh as [|h c w fuel k v c' w' Hh IH HA
                     |h c w k c' r Hh IH HG
                     |h c w c' w' Hh IH HR].
    - split; [done|]. cbn. apply dom_empty_L.
    - apply history_inv in Hh as (Hwf & Hmb & _).
      unfold Add in HA. unfold Add_events in Hno |- *.
      destruct (Add_update_spec c k v Hwf)
        as (c1 & HA1 & _ & _ & _ & Hdom1 & Hmb1 & _).
      rewrite HA1 in HA, Hno |- *.
      destruct (evict_loop_idle fuel c1 w) as [HI HE].
      { apply over_budget_false_iff. left. congruence. }
      rewrite HI in HA. rewrite HE in Hno |- *. cbn in Hno |- *.
      destruct (IH Hno) as [-> Hdom].
      injection HA as <- <-. split; [done|]. by rewrite Hdom1, Hdom.
    - cbn in Hno. destruct (IH Hno) as [-> Hdom].
      split; [done|]. cbn [added_keys].
      apply history_inv in Hh as (Hwf & _).
      destruct (cache c !! k) as [e|] eqn:Hc.
      + destruct (Get_hit c k e Hwf Hc)
          as (v0 & c1 & _ & HG' & _ & _ & _ & Hca & _).
        rewrite HG' in HG. injection HG as <- <-. by rewrite Hca.
      + rewrite (Get_miss c k Hc) in HG. by injection HG as <- <-.
    - exfalso. unfold no_RemoveOldest in Hno.
      rewrite forallb_app in Hno. cbn in Hno.
      by rewrite andb_false_r in Hno. }
  apply history_inv in Hh as (Hwf & Hmb & _).
  split_and!; [done | done | |].
  - rewrite <- Hdom, (wf_keys_dom _ Hwf).
    rewrite size_list_to_set by (by apply wf_keys_NoDup).
    by rewrite length_fmap, wf_entries_length.
  - intros k v. unfold Add.
    destruct (Add_update_spec c k v Hwf)
      as (c1 & HA1 & _ & Hent & _ & _ & Hmb1 & _).
    rewrite HA1. destruct (evict_loop_idle 0 c1 w0) as [-> _].
    + apply over_budget_false_iff. left. congruence.
    + by exists c1.
Qed.

(** C6, as amended (update law).  In a reachable state of a cache whose
    [maxBytes] is 0, or is positive and at least [len(k) + v2.Len()] (as an
    [int64]) with a callback that makes no call on the cache, [Add(k, v1)]
    followed by [Add(k, v2)] both return and leave exactly one entry for
    [k]: it is at the front, holds [v2], is the node the map gives for [k],
    and counts [len(k) + v2.Len()] in [nbytes]. *)
Theorem update_law mb cb w0 h c w k v1 v2 :
  history mb cb w0 h c w → 0 ≤ mb →
  mb = 0 ∨ (quiet cb ∧ int64 (entry_size (mkEntry k v2)) ≤ mb) →
  ∃ fuel1 c1 w1 fuel2 c2 w2 e l rest,
    Add fuel1 c k v1 w = Returned (c1, w1) ∧
    Add fuel2 c1 k v2 w1 = Returned (c2, w2) ∧
    entries c2 = mkEntry k v2 :: rest ∧ (k ∉ key <$> rest) ∧
    ll c2 = e :: l ∧ cache c2 !! k = Some e ∧
    elems c2 !! e = Some (mkEntry k v2) ∧
    nbytes c2 = int64 (entry_size (mkEntry k v2) + total_size rest).
Proof.
  intros Hh Hmb Hfit.
  pose proof Hh as (Hwf & Hmbc & _)%history_inv.
  destruct (Add_terminates (S (length (ll c))) c k v1 w Hwf)
    as (c1 & w1 & HA1); [lia | done |].
  pose proof (history_Add _ _ _ _ _ _ _ _ _ _ _ Hh HA1)
    as (Hwf1 & Hmb1 & Hcb1 & _)%history_inv.
  destruct (Add_terminates (S (length (ll c1))) c1 k v2 w1 Hwf1)
    as (c2 & w2 & HA2); [lia | done |].
  destruct (Add_sound _ _ _ _ _ _ _ Hwf1 HA2) as (Hwf2 & _).
  assert (∃ rest, entries c2 = mkEntry k v2 :: rest ∧
                  ∀ kv, kv ∈ rest → key kv ≠ k) as (rest & He2 & Hrest).
  { destruct Hfit as [Hz|[Hq Hle]].
    - unfold Add in HA2.
      destruct (Add_update_spec c1 k v2 Hwf1)
        as (c1' & HU & _ & Hent & _ & _ & Hmb' & _).
      rewrite HU in HA2. destruct (evict_loop_idle (S (length (ll c1))) c1' w1)
        as [HI _].
      { apply over_budget_false_iff. left. congruence. }
      rewrite HI in HA2. injection HA2 as <- <-.
      eexists. split; [exact Hent|].
      by intros kv [? _]%list_elem_of_filter.
    - rewrite <- Hcb1 in Hq.
      destruct (Add_quiet _ _ _ _ _ _ _ Hwf1 Hq HA2)
        as (ev & calls & _ & Hent & _ & _ & _ & Hhead & _).
      destruct (entries c2) as [|kv rest] eqn:He2.
      { destruct (Hhead eq_refl) as [Hne Hlt]. lia. }
      cbn in Hent. injection Hent as -> Hrest.
      exists rest. split; [done|]. intros kv' Hin.
      assert (kv' ∈ filter (λ kv, key kv ≠ k) (entries c1)) as Hin'
        by (rewrite Hrest, elem_of_app; by left).
      by apply list_elem_of_filter in Hin' as [? _]. }
  assert (k ∉ key <$> rest) as Hk.
  { intros (kv' & -> & Hin)%list_elem_of_fmap. by apply (Hrest kv'). }
  pose proof He2 as He2'. unfold entries in He2'.
  destruct (ll c2) as [|e l] eqn:Hll; [done|].
  destruct (wf_alloc _ Hwf2 e) as [kv' Hl]; [rewrite Hll; left|].
  cbn [omap list_omap] in He2'. rewrite Hl in He2'. injection He2' as -> _.
  exists (S (length (ll c))), c1, w1, (S (length (ll c1))), c2, w2, e, l, rest.
  split_and!; try done.
  - apply (wf_index _ Hwf2). rewrite Hll. split; [left | eauto].
  - rewrite (wf_bytes _ Hwf2). unfold live_bytes. by rewrite He2.
Qed.

(** C9, as amended (an entry larger than the budget).  On a cache built
    with [maxBytes > 0] and a callback that makes no call on the cache,
    holding entries of non-negative size whose total with the new entry
    fits an [int64], an [Add] of a new key whose [len(key) + value.Len()]
    exceeds [maxBytes] returns with the cache empty and [nbytes = 0]; the
    callback has been called once for every entry, with its key and value,
    the least recently used first and the new entry last, each time on
    fields that no longer hold the entry. *)
Theorem oversized_entry_empties_cache mb cb w0 h c w k v :
  history mb cb w0 h c w → 0 < mb → quiet cb →
  cache c !! k = None →
  mb < entry_size (mkEntry k v) →
  Forall (λ kv, 0 ≤ entry_size kv) (entries c) →
  live_bytes c + entry_size (mkEntry k v) ≤ int64_max →
  ∃ fuel c' calls,
    Add fuel c k v w
    = Returned (c', foldl (λ w p, match cb with
                                  | Some g => (g (key p.1) (value p.1) p.2 w).1
                                  | None => w
                                  end) w calls) ∧
    ll c' = [] ∧ cache c' = ∅ ∧ nbytes c' = 0 ∧ entries c' = [] ∧
    calls.*1 = reverse (entries c) ++ [mkEntry k v] ∧
    Forall (λ p, cache p.2 !! key p.1 = None ∧ p.1 ∉ entries p.2) calls.
Proof.
  intros (Hwf & Hmbc & Hcb & _)%history_inv Hpos Hq Hnew Hbig Hsizes Hfit.
  destruct (Add_terminates (S (length (ll c))) c k v w Hwf)
    as (c' & w' & HA); [lia | done |].
  destruct (Add_sound _ _ _ _ _ _ _ Hwf HA) as (Hwf' & Hob & _ & _ & Hmb' & _).
  rewrite <- Hcb in Hq.
  destruct (Add_quiet _ _ _ _ _ _ _ Hwf Hq HA)
    as (ev & calls & Hw & Hent' & Hcalls & Hviews & _).
  rewrite filter_key_absent in Hent' by done.
  assert (entries c' = []) as Hnil.
  { destruct (entries c') as [|kv rest] eqn:He'; [done|]. exfalso.
    cbn in Hent'. injection Hent' as <- Hrest.
    apply over_budget_false_iff in Hob as [Hz|Hle]; [lia|].
    rewrite (wf_bytes _ Hwf') in Hle. unfold live_bytes in Hle.
    rewrite He', total_size_cons in Hle.
    rewrite Hrest in Hsizes. apply Forall_app in Hsizes as [Hs1 Hs2].
    apply total_size_nonneg in Hs1, Hs2.
    unfold live_bytes in Hfit. rewrite Hrest, total_size_app in Hfit.
    rewrite int64_id in Hle; [lia|].
    unfold in_int64, int64_min, int64_max in *. lia. }
  exists (S (length (ll c))), c', calls.
  rewrite Hnil, app_nil_l in Hent'. subst ev.
  assert (ll c' = []) as Hll.
  { apply nil_length_inv. by rewrite <- wf_entries_length, Hnil. }
  split_and!; try done.
  - by rewrite HA, Hw, Hcb.
  - apply dom_empty_iff_L. by rewrite (wf_keys_dom _ Hwf'), Hnil.
  - by apply wf_empty_nbytes.
  - by rewrite Hcalls, reverse_cons.
Qed.

End lru_properties.

(** ** The byte view *)

Section byteview_properties.
Import ByteView.
Implicit Types (m : mem) (s : slice) (v : ByteView).

Lemma valid_length m s : valid m s → length (contents m s) = len s.
Proof.
  unfold valid, contents. intros Hv. rewrite length_take, length_drop. lia.
Qed.

(** A heap that differs from [m] only at an address [m] has not allocated
    shows the same bytes through every slice valid in [m]. *)
Lemma contents_frame m m' a s :
  m !! a = None → (∀ x, x ≠ a → m' !! x = m !! x) → valid m s →
  contents m' s = contents m s ∧ valid m' s.
Proof.
  unfold valid, contents, array. intros Ha Hframe Hv.
  destruct (decide (arr s = a)) as [Heq|Hne].
  - rewrite Heq, Ha in Hv. cbn in Hv.
    assert (len s = 0%nat) as -> by lia. assert (off s = 0%nat) as -> by lia.
    split; [done | cbn; lia].
  - by rewrite Hframe.
Qed.

Lemma store_frame m s i x m' :
  store m s i x = Some m' → ∀ a, a ≠ arr s → m' !! a = m !! a.
Proof.
  unfold store. case_decide; [|done]. intros [= <-] a Hne.
  by rewrite lookup_insert_ne.
Qed.

Lemma mutate_frame s ws : ∀ m a, a ≠ arr s → mutate m s ws !! a = m !! a.
Proof.
  induction ws as [|[i x] ws IH]; intros m a Hne; [done|].
  cbn [mutate]. destruct (store m s i x) as [m'|] eqn:Hst; [|done].
  rewrite IH by done. by eapply store_frame.
Qed.

Lemma cloneBytes_spec m s c m1 :
  valid m s → cloneBytes m s = (c, m1) →
  contents m1 c = contents m s ∧
  arr c = fresh (dom m) ∧ len c = len s ∧
  (∀ a, a ≠ fresh (dom m) → m1 !! a = m !! a).
Proof.
  intros Hv. unfold cloneBytes, make, copy. cbn [arr off len].
  intros [= <- <-]. cbn [arr off len].
  assert (m !! fresh (dom m) = None) as Hfresh
    by (apply not_elem_of_dom, is_fresh).
  set (a := fresh (dom m)) in *.
  destruct (contents_frame m (<[a := replicate (len s) x00]> m) a s Hfresh)
    as [Hc _]; [by intros; rewrite lookup_insert_ne | done |].
  split_and!; [|done|done|].
  - unfold contents at 1, array. cbn [arr off len].
    rewrite !lookup_insert_eq. cbn [default]. unfold id.
    rewrite Hc, Nat.min_id, drop_0.
    rewrite (drop_ge (replicate _ _)) by (rewrite length_replicate; lia).
    rewrite app_nil_r.
    rewrite !take_ge; [done | | ]; rewrite ?take_ge; rewrite valid_length;
      done || lia.
  - intros x Hne. by rewrite !lookup_insert_ne.
Qed.

(** C10 (copy law).  [ByteSlice] returns a slice showing the bytes of the
    view, and no run of stores through that slice changes what [Len],
    [ByteSlice] or [String] then give on the same view. *)
Theorem ByteSlice_copy_law m v c m1 :
  valid m (b v) → ByteSlice v m = (c, m1) →
  contents m1 c = contents m (b v) ∧
  ∀ ws,
    Len v = Z.of_nat (length (contents (mutate m1 c ws) (b v))) ∧
    contents (mutate m1 c ws) (b v) = contents m (b v) ∧
    String v (mutate m1 c ws) = String v m ∧
    contents (ByteSlice v (mutate m1 c ws)).2 (ByteSlice v (mutate m1 c ws)).1
    = contents m (b v).
Proof.
  intros Hv Hclone. unfold ByteSlice in *.
  destruct (cloneBytes_spec _ _ _ _ Hv Hclone) as (Hc & Harr & Hlen & Hframe).
  split; [done|]. intros ws.
  assert (m !! fresh (dom m) = None) as Hfresh
    by (apply not_elem_of_dom, is_fresh).
  destruct (contents_frame m (mutate m1 c ws) (fresh (dom m)) (b v) Hfresh)
    as [Hc2 Hv2]; [|done|].
  { intros a Hne. rewrite mutate_frame by congruence. by apply Hframe. }
  split_and!.
  - unfold Len, ByteView_Value, Len_. by rewrite valid_length.
  - done.
  - unfold String. by rewrite Hc2.
  - destruct (cloneBytes (mutate m1 c ws) (b v)) as [c' m'] eqn:Hclone'.
    destruct (cloneBytes_spec _ _ _ _ Hv2 Hclone') as (Hc' & _).
    cbn [fst snd]. by rewrite Hc', Hc2.
Qed.

End byteview_properties.

(** ** The cache: further properties of the operations *)

Section lru_more.
Context {V : Type} `{!Value V} {W : Type}.
Implicit Types (c : Cache V W) (f : Fields V) (kv : entry V) (w : W).
Implicit Types (h : list (event V)) (k : string) (v : V) (e : nat).
Implicit Types (cb : option (Callback V W)).

Lemma wf_Len_size f : wf f → length (ll f) = size (dom (cache f)).
Proof.
  intros Hwf. rewrite (wf_keys_dom _ Hwf).
  rewrite size_list_to_set by (by apply wf_keys_NoDup).
  by rewrite length_fmap, wf_entries_length.
Qed.

Lemma Get_hit_iff c k v :
  wf c →
  (∃ c', Get c k = Some (c', (Some v, true))) ↔ mkEntry k v ∈ entries c.
Proof.
  intros Hwf. split.
  - intros [c' HG]. destruct (cache c !! k) as [e|] eqn:Hc.
    + destruct (Get_hit c k e Hwf Hc) as (v0 & c1 & Hl & HG' & _).
      rewrite HG' in HG. injection HG as _ <-.
      apply wf_entry_lookup; eauto.
    + by rewrite (Get_miss c k Hc) in HG.
  - intros (e & Hc & Hl)%wf_entry_lookup; [|done].
    destruct (Get_hit c k e Hwf Hc) as (v0 & c1 & Hl' & HG' & _).
    rewrite Hl in Hl'. injection Hl' as <-. eauto.
Qed.

(** X1 ([Cache.Len]).  In every reachable state [Len()] is the number of
    keys of the map and the number of entries of the list. *)
Theorem Len_counts_keys mb cb w0 h c w :
  history mb cb w0 h c w →
  Len_cache c = size (cache c) ∧ Len_cache c = length (entries c).
Proof.
  intros (Hwf & _)%history_inv. unfold Len_cache. split.
  - by rewrite wf_Len_size, size_dom.
  - by rewrite wf_entries_length.
Qed.

(** X2 ([New]).  The budget and the callback given to [New] are those of
    the cache after every sequence of calls: no operation writes to
    [maxBytes] or [OnEvicted]. *)
Theorem budget_and_callback_fixed mb cb w0 h c w :
  history mb cb w0 h c w → maxBytes c = mb ∧ OnEvicted c = cb.
Proof. by intros (_ & Hmb & Hcb & _)%history_inv. Qed.



(** X5 ([Add] within the budget).  When the budget is 0, or the entries
    with [k] set to [v] total at most [maxBytes] (as an [int64]), [Add(k, v)]
    returns without an iteration of its loop: the callback is not called,
    nothing is evicted, [k] is at the front, and [Len()] grows by one for a
    new key and stays for a key already there. *)
Theorem Add_within_budget mb cb w0 h c w k v :
  history mb cb w0 h c w →
  mb = 0 ∨
  int64 (entry_size (mkEntry k v)
         + total_size (filter (λ kv, key kv ≠ k) (entries c))) ≤ mb →
  ∀ fuel, ∃ c',
    Add fuel c k v w = Returned (c', w) ∧
    entries c' = mkEntry k v :: filter (λ kv, key kv ≠ k) (entries c) ∧
    Len_cache c' = match cache c !! k with
                   | Some _ => Len_cache c
                   | None => S (Len_cache c)
                   end.
Proof.
  intros (Hwf & Hmb & _)%history_inv Hfit fuel. unfold Add.
  destruct (Add_update_spec c k v Hwf)
    as (c1 & HA & Hwf1 & Hent & _ & Hdom & Hmb1 & _).
  rewrite HA. destruct (evict_loop_idle fuel c1 w) as [-> _].
  - apply over_budget_false_iff. destruct Hfit as [->|Hfit]; [left; congruence|].
    right. rewrite (wf_bytes _ Hwf1). unfold live_bytes.
    rewrite Hent, total_size_cons. congruence.
  - exists c1. split_and!; [done | done |].
    unfold Len_cache. rewrite !wf_Len_size, Hdom by done.
    destruct (cache c !! k) as [e|] eqn:Hc.
    + f_equal. apply elem_of_dom_2 in Hc.
      apply set_eq. intros x. rewrite elem_of_union, elem_of_singleton.
      split; [by intros [->|?] | tauto].
    + apply not_elem_of_dom in Hc.
      rewrite size_union, size_singleton; [done|].
      intros x ->%elem_of_singleton. done.
Qed.

(** X6 (what [Add] evicts).  With a callback that makes no call on the
    cache, when [Add(k, v)] returns the entries left are a front part of
    the list with [k] moved or pushed to the front; the callback has been
    called once on each entry of the rest, with its key and value, from the
    back; and each of them was evicted in a state over the budget: the
    cache with that entry still in it exceeded a non-zero [maxBytes]. *)
Theorem Add_evicts_from_back mb cb w0 h c w fuel k v c' w' :
  history mb cb w0 h c w → quiet cb →
  Add fuel c k v w = Returned (c', w') →
  ∃ evicted calls,
    mkEntry k v :: filter (λ kv, key kv ≠ k) (entries c) = entries c' ++ evicted ∧
    w' = foldl (λ w p, match cb with
                       | Some g => (g (key p.1) (value p.1) p.2 w).1
                       | None => w
                       end) w calls ∧
    calls.*1 = reverse evicted ∧
    ∀ ev1 kv ev2, evicted = ev1 ++ kv :: ev2 →
      mb ≠ 0 ∧ mb < int64 (total_size (entries c' ++ ev1 ++ [kv])).
Proof.
  intros (Hwf & Hmb & Hcb & _)%history_inv Hq HA. rewrite <- Hcb in Hq.
  destruct (Add_quiet _ _ _ _ _ _ _ Hwf Hq HA)
    as (ev & calls & Hw & Hent & Hcalls & _ & _ & _ & Hmin).
  exists ev, calls. rewrite <- Hcb, <- Hmb. by split_and!.
Qed.

(** X7 (draining).  With a callback that makes no call on the cache, from
    every reachable state [Len()] calls of [RemoveOldest], or more, leave
    the list and the map empty and [nbytes = 0], the callback having been
    called once on every entry, with its key and value, from the back of
    the list to the front. *)
Theorem RemoveOldest_drains mb cb w0 h c w n :
  history mb cb w0 h c w → quiet cb → (Len_cache c ≤ n)%nat →
  ∃ c' calls,
    RemoveOldest_n n c w
    = Some (c', foldl (λ w p, match cb with
                              | Some g => (g (key p.1) (value p.1) p.2 w).1
                              | None => w
                              end) w calls) ∧
    Len_cache c' = 0%nat ∧ cache c' = ∅ ∧ nbytes c' = 0 ∧
    calls.*1 = reverse (entries c).
Proof.
  intros (Hwf & _ & Hcb & _)%history_inv Hq Hlen. rewrite <- Hcb in Hq.
  destruct (RemoveOldest_n_drains n c w Hwf Hq Hlen)
    as (c' & calls & HD & Hwf' & Hll & Hcalls).
  exists c', calls. rewrite <- Hcb. split_and!; [done | | | | done].
  - unfold Len_cache. by rewrite Hll.
  - apply dom_empty_iff_L. rewrite (wf_keys_dom _ Hwf').
    assert (entries c' = []) as ->; [|done].
    apply nil_length_inv. by rewrite wf_entries_length, Hll.
  - by apply wf_empty_nbytes.
Qed.


(** X9 ([Get] twice).  [Get] changes neither [nbytes], the map, the stored
    entries nor [Len()], and a second [Get] of the same key gives the same
    answer and leaves the state as the first left it. *)
Theorem Get_twice mb cb w0 h c w k c1 r :
  history mb cb w0 h c w →
  Get c k = Some (c1, r) →
  Get c1 k = Some (c1, r) ∧
  nbytes c1 = nbytes c ∧ cache c1 = cache c ∧ elems c1 = elems c ∧
  Len_cache c1 = Len_cache c.
Proof.
  intros (Hwf & _)%history_inv HG.
  destruct (cache c !! k) as [e|] eqn:Hc.
  - destruct (Get_hit c k e Hwf Hc)
      as (v0 & c2 & Hl & HG' & Hwf2 & Hll & _ & Hca & Hel & Hnb & _).
    rewrite HG' in HG. injection HG as <- <-.
    split_and!; try done.
    + unfold Get. rewrite Hca, Hc, Hel, Hl. cbn [mbind option_bind value].
      do 2 f_equal. destruct c2 as [[mb2 nb2 ll2 el2 ca2] cb2]. cbn in *.
      do 2 f_equal. subst ll2. unfold MoveToFront, Remove.
      rewrite decide_True by left.
      rewrite filter_cons_False by (intros ?; done). f_equal.
      * rewrite list_filter_filter. apply list_filter_iff. intros x. tauto.
      * congruence.
      * congruence.
    + unfold Len_cache. by rewrite !wf_Len_size, Hca.
  - rewrite (Get_miss c k Hc) in HG. injection HG as <- <-.
    split_and!; try done. by apply Get_miss.
Qed.

Lemma history_last_added mb cb w0 h c w :
  history mb cb w0 h c w →
  (∀ k v, mkEntry k v ∈ entries c → last_added h k = Some v) ∧
  (∀ kv, kv ∈ entries c → key kv ∈ added_keys h).
Proof.
  intros Hh.
  apply (history_P (λ h es,
           (∀ k v, mkEntry k v ∈ es → last_added h k = Some v) ∧
           (∀ kv, kv ∈ es → key kv ∈ added_keys h))) in Hh; try done.
  - intros h' es k' v' _ [H1 H2]. cbn [last_added added_keys]. split.
    + intros k0 v0 [[= -> ->]|Hin]%elem_of_cons.
      * by rewrite decide_True.
      * apply list_elem_of_filter in Hin as [Hne Hin]. cbn in Hne.
        rewrite decide_False by congruence. by apply H1.
    + intros kv [->|Hin]%elem_of_cons; apply elem_of_union.
      * left. by apply elem_of_singleton.
      * right. apply H2. by apply list_elem_of_filter in Hin as [_ ?].
  - intros h' es k' v' _ Hin0 [H1 H2]. cbn [last_added added_keys]. split.
    + intros k0 v0 [[= -> ->]|Hin]%elem_of_cons; [by apply H1|].
      apply H1. by apply list_elem_of_filter in Hin as [_ ?].
    + intros kv [->|Hin]%elem_of_cons; [by apply (H2 _ Hin0)|].
      apply H2. by apply list_elem_of_filter in Hin as [_ ?].
  - intros h' es kv [H1 H2]. split.
    + intros k0 v0 Hin. apply H1. rewrite elem_of_app. by left.
    + intros kv0 Hin. apply H2. rewrite elem_of_app. by left.
  - split; intros; by apply elem_of_nil in H.
Qed.

(** X10 (read your writes).  In every reachable state a value that [Get(k)]
    returns is the value given by the latest [Add] of [k], and the map holds
    no key that was never added. *)
Theorem Get_returns_last_added mb cb w0 h c w :
  history mb cb w0 h c w →
  (∀ k v c', Get c k = Some (c', (Some v, true)) → last_added h k = Some v) ∧
  dom (cache c) ⊆ added_keys h.
Proof.
  intros Hh. pose proof Hh as (Hwf & _)%history_inv.
  destruct (history_last_added _ _ _ _ _ _ Hh) as [H1 H2].
  split.
  - intros k v c' HG. apply H1. apply Get_hit_iff; eauto.
  - apply elem_of_subseteq. intros x.
    rewrite (wf_keys_dom _ Hwf), elem_of_list_to_set.
    intros (kv & -> & Hin)%list_elem_of_fmap. by apply H2.
Qed.

End lru_more.

(** ** The byte view: further properties *)

Section byteview_more.
Import ByteView.
Implicit Types (m : mem) (s : slice) (v : ByteView).

Lemma length_string_of_list_byte (l : list byte) :
  String.length (String.string_of_list_byte l) = length l.
Proof.
  unfold String.string_of_list_byte.
  induction l as [|x l IH]; [done|]. cbn. by rewrite IH.
Qed.

Lemma mutate_empty_slice s ws : ∀ m, len s = 0%nat → mutate m s ws = m.
Proof.
  intros m Hlen. destruct ws as [|[i x] ws]; [done|].
  cbn [mutate]. unfold store. rewrite decide_False; [done | lia].
Qed.

(** X11 ([String] and [Len]).  The string [String()] returns holds the
    bytes of the view, one character a byte, so its length is [Len()]. *)
Theorem String_agrees_with_Len m v :
  valid m (b v) →
  String.list_byte_of_string (String v m) = contents m (b v) ∧
  Len v = Z.of_nat (String.length (String v m)).
Proof.
  intros Hv. unfold String. split.
  - apply String.list_byte_of_string_of_list_byte.
  - rewrite length_string_of_list_byte, valid_length by done. reflexivity.
Qed.

(** X12 (what [ByteSlice] returns).  The slice returned has the length of
    the view, starts a backing array of that capacity which the heap did
    not hold before, and the call leaves every array of the heap as it
    was. *)
Theorem ByteSlice_result m v c m1 :
  valid m (b v) → ByteSlice v m = (c, m1) →
  len c = len (b v) ∧ off c = 0%nat ∧ cap c = len (b v) ∧
  m !! arr c = None ∧ valid m1 c ∧
  ∀ a, is_Some (m !! a) → m1 !! a = m !! a.
Proof.
  intros Hv Hclone. unfold ByteSlice in Hclone.
  destruct (cloneBytes_spec _ _ _ _ Hv Hclone) as (Hc & Harr & Hlen & Hframe).
  assert (m !! arr c = None) as Hfresh
    by (rewrite Harr; apply not_elem_of_dom, is_fresh).
  assert (off c = 0%nat ∧ cap c = len (b v)) as [Hoff Hcap].
  { unfold cloneBytes, make, copy in Hclone. by injection Hclone as <- _. }
  split_and!; try done.
  - pose proof (valid_length m (b v) Hv) as Hl. rewrite <- Hc in Hl.
    unfold valid. unfold contents in Hl. rewrite Hoff, drop_0 in Hl.
    rewrite length_take in Hl. lia.
  - intros a [x Ha]. apply Hframe. congruence.
Qed.

(** X13 (no aliasing, both ways).  Stores through the slice [ByteSlice]
    returned change the bytes of no slice the heap held before the call,
    and stores through any such slice do not change the bytes of the
    copy. *)
Theorem ByteSlice_no_alias m v c m1 s :
  valid m (b v) → ByteSlice v m = (c, m1) → valid m s →
  (∀ ws, contents (mutate m1 c ws) s = contents m s) ∧
  (∀ ws, contents (mutate m1 s ws) c = contents m (b v)).
Proof.
  intros Hv Hclone Hs. unfold ByteSlice in Hclone.
  destruct (cloneBytes_spec _ _ _ _ Hv Hclone) as (Hc & Harr & Hlen & Hframe).
  assert (m !! fresh (dom m) = None) as Hfresh
    by (apply not_elem_of_dom, is_fresh).
  split; intros ws.
  - apply (contents_frame m _ (fresh (dom m))); [done | | done].
    intros a Hne. rewrite mutate_frame by congruence. by apply Hframe.
  - rewrite <- Hc. destruct (decide (arr s = arr c)) as [Heq|Hne].
    + rewrite mutate_empty_slice; [done|].
      unfold valid, array in Hs. rewrite Heq, Harr, Hfresh in Hs.
      cbn in Hs. lia.
    + unfold contents, array. by rewrite mutate_frame by congruence.
Qed.

End byteview_more.

(** ** The model on concrete inputs *)

Section examples.
Import ByteView Run.

Lemma quiet_record_cb : quiet (Some record_cb).
Proof. intros g [= <-] k v f w. reflexivity. Qed.

Lemma demo_history :
  history 24 (Some record_cb) [] demo_events demo.1 demo.2.
Proof.
  change demo_events with (run_events 3 24 (Some record_cb) [] demo_events).
  apply (run_history 3). vm_compute. reflexivity.
Qed.

Lemma unbounded_history :
  history 0 (Some record_cb) [] unbounded_events unbounded.1 unbounded.2.
Proof.
  change unbounded_events
    with (run_events 0 0 (Some record_cb) [] unbounded_events).
  apply (run_history 0). vm_compute. reflexivity.
Qed.

Example demo_keys : keys demo.1 = ["key1"; "key2"] ∧ nbytes demo.1 = 24.
Proof. vm_compute. done. Qed.

(** [New(0, nil)], [Add("a", 1 byte)], [Add("b", 1 byte)]: two entries. *)
Example two_adds_without_budget :
  match run (W:=unit) 0 0 None tt [EvAdd "b" (bv 1); EvAdd "a" (bv 1)] with
  | Some (c, _) => Len_cache c = 2%nat ∧ keys c = ["b"; "a"] ∧ nbytes c = 4
  | None => False
  end.
Proof. vm_compute. done. Qed.

(** A budget that fits ["key1"] and 8 bytes exactly: adding ["key2"] evicts
    ["key1"] and reports it to the callback. *)
Example second_add_evicts_first :
  match run 2 12 (Some record_cb) [] [EvAdd "key2" (bv 8); EvAdd "key1" (bv 8)] with
  | Some (c, w) => Len_cache c = 1%nat ∧ keys c = ["key2"] ∧ w = [("key1", 8, 1%nat)]
  | None => False
  end.
Proof. vm_compute. done. Qed.

(** [Add("k")], [Get("k")], [Add("k2")], [Add("k3")] with room for two
    entries: the back of the list is ["k"], used before ["k2"] was added. *)
Example third_add_evicts_back :
  match run 2 6 (Some record_cb) []
          [EvAdd "k3" (bv 1); EvAdd "k2" (bv 1); EvGet "k" true; EvAdd "k" (bv 1)] with
  | Some (c, w) => keys c = ["k3"; "k2"] ∧ w = [("k", 1, 2%nat)]
  | None => False
  end.
Proof. vm_compute. done. Qed.

(** [Get] of a key that is not there, and [RemoveOldest] on a new cache. *)
Example miss_and_empty_removal :
  Get demo.1 "nokey" = Some (demo.1, (None, false)) ∧
  RemoveOldest (New 24 (Some record_cb)) [] = Some (New 24 (Some record_cb), []).
Proof. split; reflexivity. Qed.

(** A witness of C1: the accounting of the demo cache. *)
Lemma accounting_invariant_witness :
  history 24 (Some record_cb) [] demo_events demo.1 demo.2 ∧
  nbytes demo.1 = live_bytes demo.1.
Proof.
  split; [exact demo_history|].
  apply (accounting_invariant 24 (Some record_cb) [] demo_events demo.1 demo.2
           demo_history).
  vm_compute. split; discriminate.
Defined.

(** A witness of C8: map and list of the demo cache. *)
Lemma bijection_invariant_witness :
  history 24 (Some record_cb) [] demo_events demo.1 demo.2 ∧
  dom (cache demo.1) = list_to_set (key <$> entries demo.1) ∧
  NoDup (key <$> entries demo.1).
Proof.
  split; [exact demo_history|].
  pose proof (bijection_invariant 24 (Some record_cb) [] demo_events
                demo.1 demo.2 demo_history) as (H1 & H2 & _).
  split; assumption.
Defined.

(** A witness of C7: [Get("key2")] on the demo cache, whose map sends
    ["key2"] to node 1. *)
Lemma Get_semantics_witness :
  history 24 (Some record_cb) [] demo_events demo.1 demo.2 ∧
  ∃ v, elems demo.1 !! 1%nat = Some (mkEntry "key2" v) ∧ 1%nat ∈ ll demo.1 ∧
       Get demo.1 "key2"
       = Some (mkCache
                 (mkFields (maxBytes demo.1) (nbytes demo.1)
                    (1%nat :: Remove 1%nat (ll demo.1)) (elems demo.1)
                    (cache demo.1))
                 (OnEvicted demo.1),
               (Some v, true)) ∧
       entries (mkFields (maxBytes demo.1) (nbytes demo.1)
                  (1%nat :: Remove 1%nat (ll demo.1)) (elems demo.1)
                  (cache demo.1))
       = mkEntry "key2" v :: filter (λ kv, key kv ≠ "key2") (entries demo.1).
Proof.
  split; [exact demo_history|].
  exact (Get_semantics 24 (Some record_cb) [] demo_events demo.1 demo.2
           "key2" demo_history).
Defined.

(** A witness of C2: [RemoveOldest] on the demo cache, whose back node
    is node 1; the callback is [record_cb]. *)
Lemma RemoveOldest_semantics_witness :
  history 24 (Some record_cb) [] demo_events demo.1 demo.2 ∧
  ∃ l kv f,
    ll demo.1 = l ++ [1%nat] ∧ elems demo.1 !! 1%nat = Some kv ∧
    cache demo.1 !! key kv = Some 1%nat ∧
    ll f = l ∧ entries demo.1 = entries f ++ [kv] ∧
    cache f = delete (key kv) (cache demo.1) ∧ elems f = elems demo.1 ∧
    nbytes f = int64 (nbytes demo.1 - entry_size kv) ∧
    maxBytes f = maxBytes demo.1 ∧
    RemoveOldest demo.1 demo.2
    = (c' ← reenter (mkCache f (Some record_cb))
              (record_cb (key kv) (value kv) f demo.2).2;
       Some (c', (record_cb (key kv) (value kv) f demo.2).1)) ∧
    (∃ (c' : Cache ByteView log) w',
       RemoveOldest demo.1 demo.2 = Some (c', w') ∧
       entries c' ≡ₚ entries f ∧ cache c' = cache f ∧
       elems c' = elems f ∧ nbytes c' = nbytes f ∧
       maxBytes c' = maxBytes demo.1 ∧ OnEvicted c' = Some record_cb ∧
       (quiet (Some record_cb) → fields c' = f)) ∧
    ∀ k', k' ∈ dom (cache demo.1) → k' ≠ key kv →
          ∃ t t', last_use demo_events (key kv) = Some t ∧
                  last_use demo_events k' = Some t' ∧ (t < t')%nat.
Proof.
  split; [exact demo_history|].
  exact (RemoveOldest_semantics 24 (Some record_cb) [] demo_events
           demo.1 demo.2 demo_history).
Defined.

Example demo_removed_state :
  RemoveOldest demo.1 demo.2 = Some (demo_removed.1, demo_removed.2) ∧
  keys demo_removed.1 = ["key1"] ∧ nbytes demo_removed.1 = 12 ∧
  demo_removed.2 = [("key2", 8, 1%nat)].
Proof. vm_compute. done. Qed.

(** With a callback that calls [Get("key2")], [RemoveOldest] on a cache
    holding ["key1"], ["key2"], ["key3"] (front to back) removes ["key3"]
    and leaves ["key2"] in front of ["key1"]. *)
Example RemoveOldest_reorders_under_Get :
  match run 3 0 (Some (getting_cb "key2")) []
          [EvRemoveOldest; EvAdd "key1" (bv 1); EvAdd "key2" (bv 1);
           EvAdd "key3" (bv 1)] with
  | Some (c, w) => keys c = ["key2"; "key1"] ∧ w = [("key3", 1, 2%nat)]
  | None => False
  end.
Proof. vm_compute. done. Qed.

(** A witness of C3: [Add("key3", 8 bytes)] on the demo cache. *)
Lemma budget_invariant_witness :
  0 < 24 ∧
  (∃ fuel c' w', Add fuel demo.1 "key3" (bv 8) demo.2 = Returned (c', w')) ∧
  (∀ fuel c' w', Add fuel demo.1 "key3" (bv 8) demo.2 = Returned (c', w') →
                 maxBytes c' = 24 ∧ nbytes c' ≤ maxBytes c').
Proof.
  split; [lia|].
  apply (budget_invariant 24 (Some record_cb) [] demo_events demo.1 demo.2
           "key3" (bv 8) demo_history).
  lia.
Defined.

(** A witness of C4 as amended: the cache without a budget. *)
Lemma unbounded_never_evicts_witness :
  no_RemoveOldest unbounded_events = true ∧
  unbounded.2 = [] ∧
  dom (cache unbounded.1) = added_keys unbounded_events ∧
  length (ll unbounded.1) = size (added_keys unbounded_events) ∧
  ∀ k v, ∃ c', Add 0 unbounded.1 k v unbounded.2 = Returned (c', unbounded.2) ∧
               entries c'
               = mkEntry k v :: filter (λ kv, key kv ≠ k) (entries unbounded.1).
Proof.
  split; [reflexivity|].
  apply (unbounded_never_evicts (Some record_cb) [] unbounded_events
           unbounded.1 unbounded.2 unbounded_history).
  reflexivity.
Defined.

(** A witness of C6 as amended: ["key1"] updated twice on the demo cache. *)
Lemma update_law_witness :
  (24 = 0 ∨
   (quiet (Some record_cb) ∧ int64 (entry_size (mkEntry "key1" (bv 2))) ≤ 24)) ∧
  ∃ fuel1 c1 w1 fuel2 c2 w2 e l rest,
    Add fuel1 demo.1 "key1" (bv 1) demo.2 = Returned (c1, w1) ∧
    Add fuel2 c1 "key1" (bv 2) w1 = Returned (c2, w2) ∧
    entries c2 = mkEntry "key1" (bv 2) :: rest ∧ ("key1" ∉ key <$> rest) ∧
    ll c2 = e :: l ∧ cache c2 !! "key1" = Some e ∧
    elems c2 !! e = Some (mkEntry "key1" (bv 2)) ∧
    nbytes c2 = int64 (entry_size (mkEntry "key1" (bv 2)) + total_size rest).
Proof.
  assert (24 = 0 ∨
          (quiet (Some record_cb) ∧
           int64 (entry_size (mkEntry "key1" (bv 2))) ≤ 24)) as Hfit
    by (right; split; [exact quiet_record_cb | vm_compute; discriminate]).
  split; [exact Hfit|].
  apply (update_law 24 (Some record_cb) [] demo_events demo.1 demo.2
           "key1" (bv 1) (bv 2) demo_history); [lia | exact Hfit].
Defined.

(** A witness of C9 as amended: [Add("huge", 30 bytes)] on the demo
    cache. *)
Lemma oversized_entry_empties_cache_witness :
  quiet (Some record_cb) ∧
  cache demo.1 !! "huge" = None ∧
  24 < entry_size (mkEntry "huge" (bv 30)) ∧
  ∃ fuel c' calls,
    Add fuel demo.1 "huge" (bv 30) demo.2
    = Returned (c', foldl (λ w p, (record_cb (key p.1) (value p.1) p.2 w).1)
                      demo.2 calls) ∧
    ll c' = [] ∧ cache c' = ∅ ∧ nbytes c' = 0 ∧ entries c' = [] ∧
    calls.*1 = reverse (entries demo.1) ++ [mkEntry "huge" (bv 30)] ∧
    Forall (λ p, cache p.2 !! key p.1 = None ∧ p.1 ∉ entries p.2) calls.
Proof.
  assert (cache demo.1 !! "huge" = None) as Hnew by (vm_compute; reflexivity).
  assert (24 < entry_size (mkEntry "huge" (bv 30))) as Hbig
    by (vm_compute; reflexivity).
  split; [exact quiet_record_cb|]. split; [exact Hnew|]. split; [exact Hbig|].
  apply (oversized_entry_empties_cache 24 (Some record_cb) [] demo_events
           demo.1 demo.2 "huge" (bv 30) demo_history);
    [lia | exact quiet_record_cb | exact Hnew | exact Hbig |
     | vm_compute; discriminate].
  apply (bool_decide_unpack _). vm_compute. exact I.
Defined.

Example oversized_Add_on_demo :
  match Add 3 demo.1 "huge" (bv 30) demo.2 with
  | Returned (c', w') =>
      keys c' = [] ∧ nbytes c' = 0 ∧
      w' = [("key2", 8, 2%nat); ("key1", 8, 1%nat); ("huge", 30, 0%nat)]
  | _ => False
  end.
Proof. vm_compute. done. Qed.

(** C9 as stated fails in three ways.  With a callback that calls
    [Get("key1")], [Add("huge", 30 bytes)] on the demo cache returns with
    ["key1"] kept: each call moves ["key1"] to the front, away from the
    back.  With a value whose [Len()] is negative in the cache, and with
    sizes whose sum passes [2^63], the new entry is larger than the budget
    and yet nothing is evicted. *)
Lemma oversized_entry_not_always_emptying :
  match run 3 24 (Some (getting_cb "key1")) []
          (EvAdd "huge" (bv 30) :: demo_events) with
  | Some (c, w) =>
      24 < entry_size (mkEntry "huge" (bv 30)) ∧
      keys c = ["key1"] ∧ nbytes c = 12 ∧
      w = [("key2", 8, 2%nat); ("huge", 30, 1%nat)]
  | None => False
  end ∧
  match run (W:=unit) 2 10 None tt
          [EvAdd "huge" (mkSized 9); EvAdd "a" (mkSized (-5))] with
  | Some (c, _) =>
      10 < entry_size (mkEntry "huge" (mkSized 9)) ∧
      key <$> entries c = ["huge"; "a"] ∧ nbytes c = 9
  | None => False
  end ∧
  match run (W:=unit) 2 (2 ^ 62 + 1) None tt
          [EvAdd "b" (mkSized (2 ^ 62 + 1)); EvAdd "a" (mkSized (2 ^ 62))] with
  | Some (c, _) =>
      2 ^ 62 + 1 < entry_size (mkEntry "b" (mkSized (2 ^ 62 + 1))) ∧
      key <$> entries c = ["b"; "a"] ∧ nbytes c = - 2 ^ 63 + 3
  | None => False
  end.
Proof. vm_compute. done. Qed.

(** A witness of C10: the copy of a three-byte view, overwritten. *)
Lemma ByteSlice_copy_law_witness :
  valid heap3 (b (bv 3)) ∧
  contents (ByteSlice (bv 3) heap3).2 (ByteSlice (bv 3) heap3).1
  = contents heap3 (b (bv 3)) ∧
  ∀ ws,
    let m2 := mutate (ByteSlice (bv 3) heap3).2 (ByteSlice (bv 3) heap3).1 ws in
    Len (bv 3) = Z.of_nat (length (contents m2 (b (bv 3)))) ∧
    contents m2 (b (bv 3)) = contents heap3 (b (bv 3)) ∧
    String (bv 3) m2 = String (bv 3) heap3 ∧
    contents (ByteSlice (bv 3) m2).2 (ByteSlice (bv 3) m2).1
    = contents heap3 (b (bv 3)).
Proof.
  assert (valid heap3 (b (bv 3))) as Hv by (vm_compute; lia).
  split; [exact Hv|].
  apply (ByteSlice_copy_law heap3 (bv 3)
           (ByteSlice (bv 3) heap3).1 (ByteSlice (bv 3) heap3).2 Hv).
  vm_compute. reflexivity.
Defined.

Example copy_overwritten :
  let '(c, m1) := ByteSlice (bv 3) heap3 in
  let m2 := mutate m1 c [(0%nat, x7a); (2%nat, x7a)] in
  contents m2 c = [x7a; x62; x7a] ∧ String (bv 3) m2 = "abc"%string.
Proof. vm_compute. done. Qed.

(** C5: on a new cache with [maxBytes = -1], [Add("a", 1 byte)] does not
    return, whatever the number of iterations its loop is given. *)
Theorem Add_negative_budget_diverges :
  ∀ fuel, ∃ s,
    Add fuel (New (W:=unit) (-1) None) "a" (bv 1) tt = OutOfFuel s.
Proof.
  apply Add_New_negative_spins; [lia | by vm_compute |].
  vm_compute. split; discriminate.
Qed.

(** C4 as stated fails: with [maxBytes = -1], one iteration into the loop
    of [Add("a", 1 byte)] the entry just added is gone from the list and
    the map, and the callback has been called for it. *)
Lemma negative_budget_evicts_in_Add :
  -1 ≤ 0 ∧
  match Add 1 (New (-1) (Some record_cb)) "a" (bv 1) [] with
  | OutOfFuel (c', w') =>
      entries c' = [] ∧ cache c' !! "a" = None ∧ w' = [("a", 1, 0%nat)]
  | _ => False
  end.
Proof. split; [lia|]. vm_compute. done. Qed.

(** C6 as stated fails in two ways.  On a cache of 1 byte, [Add("ab", v1)]
    followed by [Add("ab", v2)] leaves no entry for ["ab"].  On a cache of
    10 bytes holding ["b"] and ["a"] (3 bytes each) with a callback that
    calls [Get("a")], [Add("k", 0 bytes)] followed by [Add("k", 7 bytes)]
    evicts ["b"], then ["k"], which the callback's call has left at the
    back, though ["k"] and its value are 8 bytes. *)
Lemma update_law_fails :
  match Add 2 (New (W:=unit) 1 None) "ab" (bv 1) tt with
  | Returned (c1, w1) =>
      match Add 2 c1 "ab" (bv 2) w1 with
      | Returned (c2, _) =>
          entries c2 = [] ∧ cache c2 !! "ab" = None ∧ Len_cache c2 = 0%nat
      | _ => False
      end
  | _ => False
  end ∧
  match run 3 10 (Some (getting_cb "a")) []
          [EvAdd "k" (bv 7); EvAdd "k" (bv 0); EvAdd "a" (bv 2);
           EvAdd "b" (bv 2)] with
  | Some (c, w) =>
      int64 (entry_size (mkEntry "k" (bv 7))) ≤ 10 ∧
      keys c = ["a"] ∧ cache c !! "k" = None ∧
      w = [("b", 2, 2%nat); ("k", 7, 1%nat)]
  | None => False
  end.
Proof. vm_compute. split_and!; try done. Qed.

Lemma demo_added_eq :
  Add 3 demo.1 "key3" (bv 8) demo.2 = Returned (demo_added.1, demo_added.2).
Proof. vm_compute. reflexivity. Qed.


Lemma demo_got_eq : Get demo.1 "key2" = Some (demo_got.1, demo_got.2).
Proof. vm_compute. reflexivity. Qed.

(** A witness of X1. *)
Lemma Len_counts_keys_witness :
  history 24 (Some record_cb) [] demo_events demo.1 demo.2 ∧
  Len_cache demo.1 = size (cache demo.1) ∧
  Len_cache demo.1 = length (entries demo.1).
Proof.
  split; [exact demo_history|].
  exact (Len_counts_keys 24 (Some record_cb) [] demo_events demo.1 demo.2
           demo_history).
Defined.

(** A witness of X2. *)
Lemma budget_and_callback_fixed_witness :
  history 24 (Some record_cb) [] demo_events demo.1 demo.2 ∧
  maxBytes demo.1 = 24 ∧ OnEvicted demo.1 = Some record_cb.
Proof.
  split; [exact demo_history|].
  exact (budget_and_callback_fixed 24 (Some record_cb) [] demo_events
           demo.1 demo.2 demo_history).
Defined.


(** With a callback that calls [Get("key1")], [Add("huge", 30 bytes)] on
    the demo cache returns, [Get("huge")] misses and the cache is not
    empty. *)
Example Add_then_Get_miss_under_Get :
  match run 3 24 (Some (getting_cb "key1")) []
          (EvGet "huge" false :: EvAdd "huge" (bv 30) :: demo_events) with
  | Some (c, _) => Len_cache c = 1%nat
  | None => False
  end.
Proof. vm_compute. done. Qed.


(** A witness of X5: ["key1"] written again with a value of the same
    size. *)
Lemma Add_within_budget_witness :
  (24 = 0 ∨
   int64 (entry_size (mkEntry "key1" (bv 8))
          + total_size (filter (λ kv, key kv ≠ "key1") (entries demo.1))) ≤ 24) ∧
  ∀ fuel, ∃ c',
    Add fuel demo.1 "key1" (bv 8) demo.2 = Returned (c', demo.2) ∧
    entries c'
    = mkEntry "key1" (bv 8) :: filter (λ kv, key kv ≠ "key1") (entries demo.1) ∧
    Len_cache c' = match cache demo.1 !! "key1" with
                   | Some _ => Len_cache demo.1
                   | None => S (Len_cache demo.1)
                   end.
Proof.
  assert (24 = 0 ∨
          int64 (entry_size (mkEntry "key1" (bv 8))
                 + total_size (filter (λ kv, key kv ≠ "key1") (entries demo.1)))
          ≤ 24) as Hfit by (right; vm_compute; discriminate).
  split; [exact Hfit|].
  exact (Add_within_budget 24 (Some record_cb) [] demo_events demo.1 demo.2
           "key1" (bv 8) demo_history Hfit).
Defined.

(** A witness of X6. *)
Lemma Add_evicts_from_back_witness :
  quiet (Some record_cb) ∧
  Add 3 demo.1 "key3" (bv 8) demo.2 = Returned (demo_added.1, demo_added.2) ∧
  ∃ evicted calls,
    mkEntry "key3" (bv 8) :: filter (λ kv, key kv ≠ "key3") (entries demo.1)
    = entries demo_added.1 ++ evicted ∧
    demo_added.2
    = foldl (λ w p, (record_cb (key p.1) (value p.1) p.2 w).1) demo.2 calls ∧
    calls.*1 = reverse evicted ∧
    ∀ ev1 kv ev2, evicted = ev1 ++ kv :: ev2 →
      24 ≠ 0 ∧ 24 < int64 (total_size (entries demo_added.1 ++ ev1 ++ [kv])).
Proof.
  split; [exact quiet_record_cb|]. split; [exact demo_added_eq|].
  exact (Add_evicts_from_back 24 (Some record_cb) [] demo_events demo.1 demo.2
           3 "key3" (bv 8) demo_added.1 demo_added.2 demo_history
           quiet_record_cb demo_added_eq).
Defined.

Example demo_added_state :
  keys demo_added.1 = ["key3"; "key1"] ∧ demo_added.2 = [("key2", 8, 2%nat)].
Proof. vm_compute. done. Qed.

(** A witness of X7: two calls drain the demo cache. *)
Lemma RemoveOldest_drains_witness :
  quiet (Some record_cb) ∧ (Len_cache demo.1 ≤ 2)%nat ∧
  ∃ c' calls,
    RemoveOldest_n 2 demo.1 demo.2
    = Some (c', foldl (λ w p, (record_cb (key p.1) (value p.1) p.2 w).1)
                  demo.2 calls) ∧
    Len_cache c' = 0%nat ∧ cache c' = ∅ ∧ nbytes c' = 0 ∧
    calls.*1 = reverse (entries demo.1).
Proof.
  assert (Len_cache demo.1 ≤ 2)%nat as Hlen by (vm_compute; lia).
  split; [exact quiet_record_cb|]. split; [exact Hlen|].
  exact (RemoveOldest_drains 24 (Some record_cb) [] demo_events demo.1 demo.2 2
           demo_history quiet_record_cb Hlen).
Defined.

Example demo_drained :
  match RemoveOldest_n 2 demo.1 demo.2 with
  | Some (c', w') =>
      keys c' = [] ∧ w' = [("key2", 8, 1%nat); ("key1", 8, 0%nat)]
  | None => False
  end.
Proof. vm_compute. done. Qed.


(** A witness of X9. *)
Lemma Get_twice_witness :
  Get demo.1 "key2" = Some (demo_got.1, demo_got.2) ∧
  Get demo_got.1 "key2" = Some (demo_got.1, demo_got.2) ∧
  nbytes demo_got.1 = nbytes demo.1 ∧ cache demo_got.1 = cache demo.1 ∧
  elems demo_got.1 = elems demo.1 ∧ Len_cache demo_got.1 = Len_cache demo.1.
Proof.
  split; [exact demo_got_eq|].
  exact (Get_twice 24 (Some record_cb) [] demo_events demo.1 demo.2 "key2"
           demo_got.1 demo_got.2 demo_history demo_got_eq).
Defined.

(** A witness of X10. *)
Lemma Get_returns_last_added_witness :
  history 24 (Some record_cb) [] demo_events demo.1 demo.2 ∧
  (∀ k v c', Get demo.1 k = Some (c', (Some v, true)) →
             last_added demo_events k = Some v) ∧
  dom (cache demo.1) ⊆ added_keys demo_events.
Proof.
  split; [exact demo_history|].
  exact (Get_returns_last_added 24 (Some record_cb) [] demo_events
           demo.1 demo.2 demo_history).
Defined.

(** A witness of X11. *)
Lemma String_agrees_with_Len_witness :
  valid heap3 (b (bv 3)) ∧
  String.list_byte_of_string (String (bv 3) heap3) = contents heap3 (b (bv 3)) ∧
  Len (bv 3) = Z.of_nat (String.length (String (bv 3) heap3)).
Proof.
  assert (valid heap3 (b (bv 3))) as Hv by (vm_compute; lia).
  split; [exact Hv|].
  exact (String_agrees_with_Len heap3 (bv 3) Hv).
Defined.

(** A witness of X12. *)
Lemma ByteSlice_result_witness :
  valid heap3 (b (bv 3)) ∧
  len (ByteSlice (bv 3) heap3).1 = len (b (bv 3)) ∧
  off (ByteSlice (bv 3) heap3).1 = 0%nat ∧
  cap (ByteSlice (bv 3) heap3).1 = len (b (bv 3)) ∧
  heap3 !! arr (ByteSlice (bv 3) heap3).1 = None ∧
  valid (ByteSlice (bv 3) heap3).2 (ByteSlice (bv 3) heap3).1 ∧
  ∀ a, is_Some (heap3 !! a) → (ByteSlice (bv 3) heap3).2 !! a = heap3 !! a.
Proof.
  assert (valid heap3 (b (bv 3))) as Hv by (vm_compute; lia).
  split; [exact Hv|].
  apply (ByteSlice_result heap3 (bv 3)
           (ByteSlice (bv 3) heap3).1 (ByteSlice (bv 3) heap3).2 Hv).
  vm_compute. reflexivity.
Defined.

(** A witness of X13: the copy against the last two bytes of the array. *)
Lemma ByteSlice_no_alias_witness :
  valid heap3 (b (bv 3)) ∧ valid heap3 (mkSlice 0 1 2 2) ∧
  (∀ ws, contents (mutate (ByteSlice (bv 3) heap3).2
                     (ByteSlice (bv 3) heap3).1 ws) (mkSlice 0 1 2 2)
         = contents heap3 (mkSlice 0 1 2 2)) ∧
  (∀ ws, contents (mutate (ByteSlice (bv 3) heap3).2 (mkSlice 0 1 2 2) ws)
           (ByteSlice (bv 3) heap3).1
         = contents heap3 (b (bv 3))).
Proof.
  assert (valid heap3 (b (bv 3))) as Hv by (vm_compute; lia).
  assert (valid heap3 (mkSlice 0 1 2 2)) as Hs by (vm_compute; lia).
  split; [exact Hv|]. split; [exact Hs|].
  apply (ByteSlice_no_alias heap3 (bv 3)
           (ByteSlice (bv 3) heap3).1 (ByteSlice (bv 3) heap3).2
           (mkSlice 0 1 2 2) Hv); [vm_compute; reflexivity | exact Hs].
Defined.

Example view_overwritten_copy_kept :
  let '(c, m1) := ByteSlice (bv 3) heap3 in
  let m2 := mutate m1 (b (bv 3)) [(1%nat, x7a)] in
  contents m2 (b (bv 3)) = [x61; x7a; x63] ∧ contents m2 c = [x61; x62; x63].
Proof. vm_compute. done. Qed.

End examples.
